(** * Escape-room game backend ([backend/app.py]): session state machine

    A shallow embedding of the four Flask handlers of [backend/app.py]
    ([new_game], [get_game_state], [solve_puzzle], [get_hint]) and of the
    configuration dictionary [GAME_CONFIG], followed by the properties of
    the session state machine.

    Modelling conventions.
    - The module-level dictionary [game_states] is threaded explicitly:
      every handler takes the store and returns the response together with
      the store it leaves behind.  A session record is a Python dict that is
      mutated in place, so a handler that raises after a mutation returns
      the mutated store.
    - [time.time()] is an input of the handlers that read the clock.  A
      reading is a float; it is taken as the rational number it denotes and
      the handlers subtract exactly.  Python subtracts floats with correct
      rounding, so it returns the exact difference whenever that difference
      is itself a binary64 number ([binary64]).  This is the case for the
      readings of [time.time()] between 2^30 and 2^31 seconds
      ([unix_reading]), and the property of the reported time is stated for
      them.
    - Python [dict]s whose iteration order matters ([GAME_CONFIG]'s
      sub-dictionaries, JSON objects) are association lists in insertion
      order; the per-session flag dictionaries and [game_states], which are
      only looked up and updated by key, are [gmap]s.
    - Text is a Rocq [string] of bytes, UTF-8 for characters outside
      ASCII.  [lower] is [str.lower] on ASCII letters and leaves every other
      byte as it is.  [str.lower] also maps characters outside ASCII, and
      exactly one of them to ASCII text: U+212A (the Kelvin sign) to [k].
      So the comparison of an attempt with a solution is the one of the
      code when the solution is ASCII text without the letter k
      ([plain_text]), and the property of the comparison is stated for such
      solutions.
    - An uncaught Python exception ([KeyError], [AttributeError]) is the
      response [Raise]. *)

From Stdlib Require Import ZArith QArith Qminmax Qround Qpower Lqa String Ascii List Lia.
From stdpp Require Import base option list gmap strings pretty.

Set Warnings "-register-all".
Local Open Scope string_scope.
Local Open Scope Z_scope.

(** ** JSON values and HTTP responses *)

Inductive json : Type :=
| JNull
| JBool (b : bool)
| JInt (z : Z)
| JStr (s : string)
| JArr (l : list json)
| JObj (kvs : list (string * json)).

Inductive exn : Type :=
| KeyError (k : string)
| AttributeError (attr : string).

(** [jsonify(body)] with the default status 200, [jsonify(body), status],
    or an exception escaping the handler. *)
Inductive response : Type :=
| Resp (status : Z) (body : json)
| Raise (e : exn).

Inductive result (A : Type) : Type :=
| Ok (a : A)
| Err (e : exn).
Arguments Ok {A} a.
Arguments Err {A} e.

#[global] Instance result_ret : MRet result := fun A a => Ok a.
#[global] Instance result_bind : MBind result := fun A B f m =>
  match m with
  | Ok a => f a
  | Err e => Err e
  end.

(** ** Python primitives *)

(** [d[k]] / [k in d] / [d.get(k)] on an insertion-ordered dictionary. *)
Fixpoint assoc {A : Type} (k : string) (d : list (string * A)) : option A :=
  match d with
  | [] => None
  | (k', v) :: d' => if decide (k' = k) then Some v else assoc k d'
  end.

(** [int(x)] on a float: truncation toward zero. *)
Definition py_int (x : Q) : Z := Z.quot (Qnum x) (Z.pos (Qden x)).

(** [max(0, x)]: the first argument unless the second is strictly larger. *)
Definition py_max0 (x : Q) : Q := if Qle_bool x 0 then 0%Q else x.

(** [str.lower] on ASCII text. *)
Definition lower_ascii (c : ascii) : ascii :=
  let n := N_of_ascii c in
  if ((65 <=? n) && (n <=? 90))%N then ascii_of_N (n + 32) else c.

Fixpoint lower (s : string) : string :=
  match s with
  | EmptyString => EmptyString
  | String c s' => String (lower_ascii c) (lower s')
  end.

(** [data.get(key, default)] where [data = request.json]: only a JSON
    object has a [get] method. *)
Definition json_get (data : json) (key : string) (dflt : json) : result json :=
  match data with
  | JObj kvs => Ok (default dflt (assoc key kvs))
  | _ => Err (AttributeError "get")
  end.

(** [v.lower()]: only a string has a [lower] method. *)
Definition json_lower (v : json) : result string :=
  match v with
  | JStr s => Ok (lower s)
  | _ => Err (AttributeError "lower")
  end.

(** ** Clock readings *)

(** The finite binary64 numbers: [m * 2^e] with a significand of at most 53
    bits.  A float operation whose exact result is one of them returns it. *)
Definition binary64 (q : Q) : Prop :=
  exists m e : Z,
    Z.abs m < 2 ^ 53 /\ -1074 <= e <= 971 /\ (q == inject_Z m * 2 ^ e)%Q.

(** The binary64 numbers from 2^30 up to 2^31, which are the multiples of
    2^-22 in that range: the readings of [time.time()] from January 2004
    to January 2038. *)
Definition unix_reading (q : Q) : Prop :=
  exists n : Z, 2 ^ 52 <= n < 2 ^ 53 /\ (q == n # 4194304)%Q.

(** ** Configuration registry *)

Record puzzle_def : Type := {
  p_solved : bool;
  p_solution : option string;
  p_requires : option (list string);
  p_description : string
}.

Record item_def : Type := {
  i_found : bool;
  i_location : string;
  i_description : string
}.

Record config : Type := {
  cfg_time_limit : Z;
  cfg_puzzles : list (string * puzzle_def);
  cfg_items : list (string * item_def)
}.

Definition GAME_CONFIG : config := {|
  cfg_time_limit := 30 * 60;
  cfg_puzzles := [
    ("safe", {| p_solved := false; p_solution := Some "1234"; p_requires := None;
                p_description := "A locked safe with a 4-digit combination." |});
    ("bookshelf", {| p_solved := false; p_solution := Some "red,blue,green"; p_requires := None;
                p_description := "A bookshelf with colored books that need to be arranged." |});
    ("computer", {| p_solved := false; p_solution := Some "password"; p_requires := None;
                p_description := "A locked computer that needs a password." |});
    ("door", {| p_solved := false; p_solution := None;
                p_requires := Some ["safe"; "bookshelf"; "computer"];
                p_description := "The exit door. Requires all other puzzles to be solved." |})
  ];
  cfg_items := [
    ("key", {| i_found := false; i_location := "safe";
               i_description := "A small golden key." |});
    ("note", {| i_found := false; i_location := "bookshelf";
               i_description := "A handwritten note with a clue." |});
    ("usb_drive", {| i_found := false; i_location := "computer";
               i_description := "A USB drive with important data." |})
  ]
|}.

(** ** Session records

    [state["puzzles"][k]] is the one-field dict [{"solved": b}] and
    [state["items"][k]] is [{"found": b}]; both are kept as the flag.
    The key ["success"] is absent until a handler sets it. *)

Record game_state : Type := {
  start_time : Q;
  puzzles : gmap string bool;
  items : gmap string bool;
  hints_used : Z;
  completed : bool;
  success : option bool
}.

Definition set_puzzle_solved (k : string) (st : game_state) : game_state :=
  {| start_time := start_time st; puzzles := <[k := true]> (puzzles st);
     items := items st; hints_used := hints_used st;
     completed := completed st; success := success st |}.

Definition set_item_found (k : string) (st : game_state) : game_state :=
  {| start_time := start_time st; puzzles := puzzles st;
     items := <[k := true]> (items st); hints_used := hints_used st;
     completed := completed st; success := success st |}.

Definition set_completed (ok : bool) (st : game_state) : game_state :=
  {| start_time := start_time st; puzzles := puzzles st;
     items := items st; hints_used := hints_used st;
     completed := true; success := Some ok |}.

Definition incr_hints_used (st : game_state) : game_state :=
  {| start_time := start_time st; puzzles := puzzles st;
     items := items st; hints_used := hints_used st + 1;
     completed := completed st; success := success st |}.

(** [state[field][k][flag]] *)
Definition flag (d : gmap string bool) (k : string) : result bool :=
  match d !! k with
  | Some b => Ok b
  | None => Err (KeyError k)
  end.

Definition error_body (msg : string) : json := JObj [("error", JStr msg)].

(** ** The handlers *)

Section Handlers.
Variable cfg : config.

Definition create_new_game_state (now : Q) : game_state := {|
  start_time := now;
  puzzles := list_to_map (map (fun kv => (fst kv, false)) (cfg_puzzles cfg));
  items := list_to_map (map (fun kv => (fst kv, false)) (cfg_items cfg));
  hints_used := 0;
  completed := false;
  success := None
|}.

(** [new_game] reads the clock twice: for the session id and, inside
    [create_new_game_state], for the start time. *)
Definition new_game (t_id t_start : Q) (game_states : gmap string game_state)
  : response * gmap string game_state :=
  let session_id := pretty (py_int t_id) in
  (Resp 200 (JObj [("session_id", JStr session_id);
                   ("message", JStr "New game started");
                   ("time_limit", JInt (cfg_time_limit cfg))]),
   <[session_id := create_new_game_state t_start]> game_states).

(** The two dict comprehensions of [get_game_state]. *)
Fixpoint puzzles_view (state_puzzles : gmap string bool)
  (ps : list (string * puzzle_def)) : result (list (string * json)) :=
  match ps with
  | [] => Ok []
  | (k, p) :: ps' =>
      solved ← flag state_puzzles k;
      rest ← puzzles_view state_puzzles ps';
      Ok ((k, JObj [("solved", JBool solved);
                    ("description", JStr (p_description p))]) :: rest)
  end.

Fixpoint items_view (state_items : gmap string bool)
  (its : list (string * item_def)) : result (list (string * json)) :=
  match its with
  | [] => Ok []
  | (k, it) :: its' =>
      found ← flag state_items k;
      found' ← flag state_items k;
      rest ← items_view state_items its';
      Ok ((k, JObj [("found", JBool found);
                    ("description",
                     JStr (if (found' : bool) then i_description it else "???"))]) :: rest)
  end.

Definition get_game_state (now : Q) (game_states : gmap string game_state)
  (session_id : string) : response * gmap string game_state :=
  match game_states !! session_id with
  | None => (Resp 404 (error_body "Game session not found"), game_states)
  | Some state0 =>
      let elapsed_time := (now - start_time state0)%Q in
      let time_remaining :=
        py_max0 (inject_Z (cfg_time_limit cfg) - elapsed_time)%Q in
      let timed_out := Qle_bool time_remaining 0 && negb (completed state0) in
      let state := if timed_out then set_completed false state0 else state0 in
      let game_states' :=
        if timed_out then <[session_id := state]> game_states else game_states in
      let body :=
        ps ← puzzles_view (puzzles state) (cfg_puzzles cfg);
        its ← items_view (items state) (cfg_items cfg);
        Ok (JObj [("time_remaining", JInt (py_int time_remaining));
                  ("puzzles", JObj ps);
                  ("items", JObj its);
                  ("hints_used", JInt (hints_used state));
                  ("completed", JBool (completed state));
                  ("success", JBool (default false (success state)))]) in
      match body with
      | Ok b => (Resp 200 b, game_states')
      | Err e => (Raise e, game_states')
      end
  end.

(** [all(state["puzzles"][p]["solved"] for p in required_puzzles)]: stops
    at the first unsolved puzzle. *)
Fixpoint all_solved (state_puzzles : gmap string bool) (required : list string)
  : result bool :=
  match required with
  | [] => Ok true
  | p :: required' =>
      solved ← flag state_puzzles p;
      if (solved : bool) then all_solved state_puzzles required' else Ok false
  end.

(** The [for item_id, item in GAME_CONFIG["items"].items()] loop of
    [solve_puzzle]: the first item located at the puzzle and not found. *)
Fixpoint find_item (puzzle_id : string) (state_items : gmap string bool)
  (its : list (string * item_def)) : result (option (string * item_def)) :=
  match its with
  | [] => Ok None
  | (item_id, item) :: its' =>
      if decide (i_location item = puzzle_id) then
        found ← flag state_items item_id;
        if (found : bool) then find_item puzzle_id state_items its'
        else Ok (Some (item_id, item))
      else find_item puzzle_id state_items its'
  end.

Definition solve_puzzle (game_states : gmap string game_state)
  (session_id puzzle_id : string) (data : json)
  : response * gmap string game_state :=
  match game_states !! session_id with
  | None => (Resp 404 (error_body "Game session not found"), game_states)
  | Some state =>
  match assoc puzzle_id (cfg_puzzles cfg) with
  | None => (Resp 404 (error_body "Puzzle not found"), game_states)
  | Some pdef =>
  if completed state then
    (Resp 400 (error_body "Game already completed"), game_states)
  else
  match flag (puzzles state) puzzle_id with
  | Err e => (Raise e, game_states)
  | Ok true => (Resp 400 (error_body "Puzzle already solved"), game_states)
  | Ok false =>
  match json_get data "solution" (JStr "") with
  | Err e => (Raise e, game_states)
  | Ok solution_attempt =>
  if decide (puzzle_id = "door") then
    let required :=
      door ← from_option Ok (Err (KeyError "door")) (assoc "door" (cfg_puzzles cfg));
      from_option Ok (Err (KeyError "requires")) (p_requires door) in
    match required ≫= all_solved (puzzles state) with
    | Err e => (Raise e, game_states)
    | Ok true =>
        (Resp 200 (JObj [("success", JBool true);
                         ("message", JStr "Congratulations! You've escaped the room!");
                         ("game_completed", JBool true)]),
         <[session_id := set_completed true (set_puzzle_solved "door" state)]> game_states)
    | Ok false =>
        (Resp 200 (JObj [("success", JBool false);
                         ("message", JStr "You need to solve all puzzles before opening the door.")]),
         game_states)
    end
  else
    match p_solution pdef with
    | None => (Raise (KeyError "solution"), game_states)
    | Some correct_solution =>
    match json_lower solution_attempt with
    | Err e => (Raise e, game_states)
    | Ok attempt =>
    if decide (attempt = lower correct_solution) then
      let state1 := set_puzzle_solved puzzle_id state in
      match find_item puzzle_id (items state1) (cfg_items cfg) with
      | Err e => (Raise e, <[session_id := state1]> game_states)
      | Ok (Some (item_id, item)) =>
          (Resp 200 (JObj [("success", JBool true);
                           ("message", JStr ("Puzzle solved! You found: " ++ i_description item));
                           ("item_found", JStr item_id)]),
           <[session_id := set_item_found item_id state1]> game_states)
      | Ok None =>
          (Resp 200 (JObj [("success", JBool true);
                           ("message", JStr "Puzzle solved!")]),
           <[session_id := state1]> game_states)
      end
    else
      (Resp 200 (JObj [("success", JBool false);
                       ("message", JStr "Incorrect solution. Try again.")]),
       game_states)
    end
    end
  end
  end
  end
  end.

Definition hints : list (string * string) := [
  ("safe", "Look for a 4-digit code hidden in the room. Maybe check the bookshelf?");
  ("bookshelf", "The colors need to be arranged in a specific order. Look for a pattern elsewhere.");
  ("computer", "The password might be written down somewhere. Have you checked all items?");
  ("door", "You need to solve all other puzzles first.")
].

Definition get_hint (game_states : gmap string game_state)
  (session_id puzzle_id : string) : response * gmap string game_state :=
  match game_states !! session_id with
  | None => (Resp 404 (error_body "Game session not found"), game_states)
  | Some state0 =>
  match assoc puzzle_id (cfg_puzzles cfg) with
  | None => (Resp 404 (error_body "Puzzle not found"), game_states)
  | Some _ =>
      let state := incr_hints_used state0 in
      (Resp 200 (JObj [("hint", JStr (default "No hint available for this puzzle."
                                        (assoc puzzle_id hints)));
                       ("hints_used", JInt (hints_used state))]),
       <[session_id := state]> game_states)
  end
  end.

(** ** Requests and runs of the server *)

Inductive request : Type :=
| NewGame (t_id t_start : Q)
| GetState (now : Q) (session_id : string)
| Solve (session_id puzzle_id : string) (data : json)
| Hint (session_id puzzle_id : string).

Definition handle (r : request) (game_states : gmap string game_state)
  : response * gmap string game_state :=
  match r with
  | NewGame t_id t_start => new_game t_id t_start game_states
  | GetState now sid => get_game_state now game_states sid
  | Solve sid pid data => solve_puzzle game_states sid pid data
  | Hint sid pid => get_hint game_states sid pid
  end.

(** The store after serving the requests in order. *)
Fixpoint run (rs : list request) (game_states : gmap string game_state)
  : gmap string game_state :=
  match rs with
  | [] => game_states
  | r :: rs' => run rs' (snd (handle r game_states))
  end.

(** The stores the server can be in: it starts with [game_states = {}]. *)
Inductive reachable : gmap string game_state -> Prop :=
| reachable_init : reachable ∅
| reachable_step r gs : reachable gs -> reachable (snd (handle r gs)).

End Handlers.

(** ** Reading responses *)

(** [body[k]] on a JSON object. *)
Definition json_field (body : json) (k : string) : option json :=
  match body with
  | JObj kvs => assoc k kvs
  | _ => None
  end.

Definition resp_field (r : response) (k : string) : option json :=
  match r with
  | Resp _ body => json_field body k
  | Raise _ => None
  end.

Definition resp_status (r : response) : option Z :=
  match r with
  | Resp status _ => Some status
  | Raise _ => None
  end.

(** The entries of the ["items"] object of a view. *)
Definition view_items (r : response) : list (string * json) :=
  match resp_field r "items" with
  | Some (JObj its) => its
  | _ => []
  end.

(** A rejection delivered inline: status 200 with [success: false] and a
    message, and nothing else. *)
Definition non_fatal_failure (r : response) : Prop :=
  exists msg, r = Resp 200 (JObj [("success", JBool false); ("message", JStr msg)]).

Definition incorrect_answer : response :=
  Resp 200 (JObj [("success", JBool false);
                  ("message", JStr "Incorrect solution. Try again.")]).

Definition prerequisites_unmet : response :=
  Resp 200 (JObj [("success", JBool false);
                  ("message", JStr "You need to solve all puzzles before opening the door.")]).

Definition victory : response :=
  Resp 200 (JObj [("success", JBool true);
                  ("message", JStr "Congratulations! You've escaped the room!");
                  ("game_completed", JBool true)]).

(** ** Invariants of session records *)

(** Every key of the registry has its flag in the record, so no handler
    raises [KeyError] on it. *)
Definition wf_state (cfg : config) (st : game_state) : Prop :=
  (forall k, k ∈ (cfg_puzzles cfg).*1 -> is_Some (puzzles st !! k)) /\
  (forall k, k ∈ (cfg_items cfg).*1 -> is_Some (items st !! k)).

(** An item is found only once the puzzle it is located at is solved. *)
Definition items_follow_puzzles (cfg : config) (st : game_state) : Prop :=
  forall k it, (k, it) ∈ cfg_items cfg -> items st !! k = Some true ->
    puzzles st !! i_location it = Some true.

(** What one request can do to the record of session [sid].  This is the
    case analysis of the handlers, used to carry invariants along runs;
    [handle_lookup] relates it to [handle]. *)
Inductive session_step (cfg : config) (r : request) (sid : string)
  (st : game_state) : game_state -> Prop :=
| step_same : session_step cfg r sid st st
| step_timeout now :
    r = GetState now sid ->
    (inject_Z (cfg_time_limit cfg) <= now - start_time st)%Q ->
    completed st = false ->
    session_step cfg r sid st (set_completed false st)
| step_door data :
    r = Solve sid "door" data ->
    completed st = false ->
    session_step cfg r sid st (set_completed true (set_puzzle_solved "door" st))
| step_solved pid data :
    r = Solve sid pid data ->
    completed st = false ->
    session_step cfg r sid st (set_puzzle_solved pid st)
| step_revealed pid data item_id item :
    r = Solve sid pid data ->
    completed st = false ->
    (item_id, item) ∈ cfg_items cfg ->
    i_location item = pid ->
    session_step cfg r sid st (set_item_found item_id (set_puzzle_solved pid st))
| step_hint pid :
    r = Hint sid pid ->
    session_step cfg r sid st (incr_hints_used st).

(** Two registries that differ at most in the descriptions of items the
    session [st] has not found. *)
Definition same_up_to_unfound (st : game_state) (c1 c2 : config) : Prop :=
  cfg_time_limit c1 = cfg_time_limit c2 /\
  cfg_puzzles c1 = cfg_puzzles c2 /\
  Forall2 (fun kv1 kv2 =>
             fst kv1 = fst kv2 /\
             i_found (snd kv1) = i_found (snd kv2) /\
             i_location (snd kv1) = i_location (snd kv2) /\
             (items st !! fst kv1 = Some true ->
              i_description (snd kv1) = i_description (snd kv2)))
          (cfg_items c1) (cfg_items c2).

(** The flags of a record never go from true to false. *)
Definition flags_kept (st st' : game_state) : Prop :=
  (completed st = true -> completed st' = true) /\
  (forall p, puzzles st !! p = Some true -> puzzles st' !! p = Some true).

(** A run in which no [new_game] call is handed the id [sid]. *)
Definition fresh_ids (sid : string) (rs : list request) : Prop :=
  forall t_id t_start, NewGame t_id t_start ∈ rs -> pretty (py_int t_id) ≠ sid.

(** ** The shape of a view *)

Definition puzzle_entry (solved : bool) (p : puzzle_def) : json :=
  JObj [("solved", JBool solved); ("description", JStr (p_description p))].

Definition item_entry (found : bool) (description : string) : json :=
  JObj [("found", JBool found); ("description", JStr description)].

(** The body [get_game_state] builds from a record that has every flag. *)
Definition view_of (cfg : config) (time_remaining : Q) (state : game_state) : json :=
  JObj [("time_remaining", JInt (py_int time_remaining));
        ("puzzles",
         JObj (map (fun kv => (fst kv,
                      puzzle_entry (default false (puzzles state !! fst kv)) (snd kv)))
                   (cfg_puzzles cfg)));
        ("items",
         JObj (map (fun kv => (fst kv,
                      item_entry (default false (items state !! fst kv))
                        (if default false (items state !! fst kv)
                         then i_description (snd kv) else "???")))
                   (cfg_items cfg)));
        ("hints_used", JInt (hints_used state));
        ("completed", JBool (completed state));
        ("success", JBool (default false (success state)))].

(** ** Case-insensitive equality, as a specification *)

(** Case-insensitive equality of ASCII text, stated without [lower]: two
    characters match when they are equal or are the upper-case and the
    lower-case form of one letter. *)
Definition is_upper (c : ascii) : Prop :=
  (65 <= N_of_ascii c <= 90)%N.

Definition same_letter (c d : ascii) : Prop :=
  c = d \/
  (is_upper c /\ N_of_ascii d = (N_of_ascii c + 32)%N) \/
  (is_upper d /\ N_of_ascii c = (N_of_ascii d + 32)%N).

Fixpoint case_insensitive_eq (a b : string) : Prop :=
  match a, b with
  | EmptyString, EmptyString => True
  | String c a', String d b' => same_letter c d /\ case_insensitive_eq a' b'
  | _, _ => False
  end.

(** ASCII text without the letter k, in either case. *)
Definition plain_ascii (c : ascii) : bool :=
  let n := N_of_ascii c in
  ((n <? 128) && negb (n =? 75) && negb (n =? 107))%N.

Fixpoint plain_text (s : string) : bool :=
  match s with
  | EmptyString => true
  | String c s' => plain_ascii c && plain_text s'
  end.

(** ** Sample runs *)

Definition solution (text : string) : json := JObj [("solution", JStr text)].

(** One session, created at clock reading 1000.2. *)
Definition store_fresh : gmap string game_state :=
  run GAME_CONFIG [NewGame (5001 # 5) (5001 # 5)] ∅.

(** The same session after the safe has been opened. *)
Definition store_safe : gmap string game_state :=
  run GAME_CONFIG [Solve "1000" "safe" (solution "1234")] store_fresh.

(** The same session after the three puzzles have been solved. *)
Definition store_three : gmap string game_state :=
  run GAME_CONFIG [Solve "1000" "bookshelf" (solution "Red,Blue,Green");
                   Solve "1000" "computer" (solution "PASSWORD")] store_safe.

(** The same session after the door has been opened. *)
Definition store_escaped : gmap string game_state :=
  run GAME_CONFIG [Solve "1000" "door" (JObj [])] store_three.

(** One session, created at clock reading 1700000000.25. *)
Definition store_clock : gmap string game_state :=
  run GAME_CONFIG [NewGame (6800000001 # 4) (6800000001 # 4)] ∅.

(** [game_states[sid]] of a sample run. *)
Definition get_session (gs : gmap string game_state) (sid : string) : game_state :=
  default (create_new_game_state GAME_CONFIG 0) (gs !! sid).

(** The registry of the game with another description for the key. *)
Definition GAME_CONFIG_lead_key : config := {|
  cfg_time_limit := cfg_time_limit GAME_CONFIG;
  cfg_puzzles := cfg_puzzles GAME_CONFIG;
  cfg_items := [
    ("key", {| i_found := false; i_location := "safe";
               i_description := "A heavy key made of lead." |});
    ("note", {| i_found := false; i_location := "bookshelf";
               i_description := "A handwritten note with a clue." |});
    ("usb_drive", {| i_found := false; i_location := "computer";
               i_description := "A USB drive with important data." |})
  ]
|}.

(** ** Effects of a request, in full

    The case analysis of the handlers with every condition a branch
    checks; [handle_record_step] relates it to [handle]. *)

(** The session a request is addressed to; for [new_game], the id it
    hands out. *)
Definition target (r : request) : string :=
  match r with
  | NewGame t_id _ => pretty (py_int t_id)
  | GetState _ sid => sid
  | Solve sid _ _ => sid
  | Hint sid _ => sid
  end.

(** The ids handed out by the [new_game] calls of a run. *)
Definition new_ids (rs : list request) : list string :=
  omap (fun r => match r with
                 | NewGame t_id _ => Some (pretty (py_int t_id))
                 | _ => None
                 end) rs.

(** What an attempt that passes the guards of [solve_puzzle] does to the
    record. *)
Inductive solve_effect (cfg : config) (pid : string) (st : game_state)
  : game_state -> Prop :=
| effect_door door required :
    pid = "door" ->
    assoc "door" (cfg_puzzles cfg) = Some door ->
    p_requires door = Some required ->
    Forall (fun p => puzzles st !! p = Some true) required ->
    solve_effect cfg pid st (set_completed true (set_puzzle_solved "door" st))
| effect_solved :
    pid ≠ "door" ->
    find_item pid (items st) (cfg_items cfg) = Ok None ->
    solve_effect cfg pid st (set_puzzle_solved pid st)
| effect_raised e :
    pid ≠ "door" ->
    find_item pid (items st) (cfg_items cfg) = Err e ->
    solve_effect cfg pid st (set_puzzle_solved pid st)
| effect_revealed item_id item :
    pid ≠ "door" ->
    find_item pid (items st) (cfg_items cfg) = Ok (Some (item_id, item)) ->
    solve_effect cfg pid st (set_item_found item_id (set_puzzle_solved pid st)).

Inductive record_step (cfg : config) (r : request) (sid : string)
  (st : game_state) : game_state -> Prop :=
| record_same :
    (forall pid, r = Hint sid pid -> assoc pid (cfg_puzzles cfg) = None) ->
    record_step cfg r sid st st
| record_created t_id t_start :
    r = NewGame t_id t_start ->
    pretty (py_int t_id) = sid ->
    record_step cfg r sid st (create_new_game_state cfg t_start)
| record_timeout now :
    r = GetState now sid ->
    (inject_Z (cfg_time_limit cfg) <= now - start_time st)%Q ->
    completed st = false ->
    record_step cfg r sid st (set_completed false st)
| record_solve pid data st' :
    r = Solve sid pid data ->
    is_Some (assoc pid (cfg_puzzles cfg)) ->
    completed st = false ->
    puzzles st !! pid = Some false ->
    solve_effect cfg pid st st' ->
    record_step cfg r sid st st'
| record_hint pid :
    r = Hint sid pid ->
    is_Some (assoc pid (cfg_puzzles cfg)) ->
    record_step cfg r sid st (incr_hints_used st).

(** A record that differs from [st] at most by a larger hint counter. *)
Definition frozen (st st' : game_state) : Prop :=
  start_time st' = start_time st /\ puzzles st' = puzzles st /\
  items st' = items st /\ completed st' = completed st /\
  success st' = success st /\ hints_used st <= hints_used st'.

(** The number of hint requests of a run that are addressed to [sid] and
    name a puzzle of the registry. *)
Fixpoint hint_requests (cfg : config) (sid : string) (rs : list request) : Z :=
  match rs with
  | [] => 0
  | Hint s pid :: rs' =>
      (if decide (s = sid)
       then match assoc pid (cfg_puzzles cfg) with Some _ => 1 | None => 0 end
       else 0) + hint_requests cfg sid rs'
  | _ :: rs' => hint_requests cfg sid rs'
  end.

(** The keys and counters of a record, as every handler leaves them. *)
Definition record_shape (cfg : config) (st : game_state) : Prop :=
  dom (puzzles st) = list_to_set (cfg_puzzles cfg).*1 /\
  dom (items st) = list_to_set (cfg_items cfg).*1 /\
  0 <= hints_used st /\
  (completed st = false <-> success st = None).

(** A registry on which [solve_puzzle] finds every key it reads: each
    puzzle other than the door has a solution, and the door lists
    prerequisites that are puzzles of the registry. *)
Definition wf_config (cfg : config) : Prop :=
  (forall pid pdef, assoc pid (cfg_puzzles cfg) = Some pdef -> pid ≠ "door" ->
     is_Some (p_solution pdef)) /\
  (forall door, assoc "door" (cfg_puzzles cfg) = Some door ->
     exists required, p_requires door = Some required /\
       forall p, p ∈ required -> p ∈ (cfg_puzzles cfg).*1).

(** A body [solve_puzzle] can read for the puzzle [pid]: a JSON object
    whose ["solution"], when present and when the puzzle is not the door,
    is a string. *)
Definition well_formed_attempt (pid : string) (data : json) : Prop :=
  exists kvs, data = JObj kvs /\
    (pid = "door" \/ exists text, default (JStr "") (assoc "solution" kvs) = JStr text).

(** A registry with a second item in the safe and an item at the door. *)
Definition GAME_CONFIG_crowded : config := {|
  cfg_time_limit := cfg_time_limit GAME_CONFIG;
  cfg_puzzles := cfg_puzzles GAME_CONFIG;
  cfg_items := [
    ("key", {| i_found := false; i_location := "safe";
               i_description := "A small golden key." |});
    ("coin", {| i_found := false; i_location := "safe";
               i_description := "An old coin." |});
    ("map", {| i_found := false; i_location := "door";
               i_description := "A map of the building." |})
  ]
|}.

Definition store_crowded : gmap string game_state :=
  run GAME_CONFIG_crowded [NewGame (5001 # 5) (5001 # 5);
                           Solve "1000" "safe" (solution "1234")] ∅.

(** ** The body of an attempt

    [solve_puzzle] reads [request.json] at line 132, after its four guards.
    The property either evaluates to the parsed body ([None] is [JNull]) or
    raises one of Werkzeug's HTTP exceptions, which the handler does not
    catch and Flask answers with the status of the exception:
    [BadRequest] for a body that is not valid JSON, and, depending on the
    version, [BadRequest] or [UnsupportedMediaType] for a content type
    other than JSON. *)
Inductive http_exception : Type :=
| BadRequest
| UnsupportedMediaType.

Definition http_status (e : http_exception) : Z :=
  match e with
  | BadRequest => 400
  | UnsupportedMediaType => 415
  end.

Inductive request_json : Type :=
| Parsed (data : json)
| Aborted (e : http_exception).

(** What the client gets: the answer the handler returned or the exception
    it raised, or the error page of an HTTP exception. *)
Inductive outcome : Type :=
| Returned (r : response)
| HttpError (e : http_exception).

Definition outcome_status (o : outcome) : option Z :=
  match o with
  | Returned r => resp_status r
  | HttpError e => Some (http_status e)
  end.

Definition outcome_field (o : outcome) (k : string) : option json :=
  match o with
  | Returned r => resp_field r k
  | HttpError _ => None
  end.

(** [solve_puzzle] as a function of what [request.json] does: the guards
    of lines 116-129 come first, then line 132 either aborts or hands the
    parsed body to the rest of the handler. *)
Definition solve_puzzle_request (cfg : config) (game_states : gmap string game_state)
  (session_id puzzle_id : string) (body : request_json)
  : outcome * gmap string game_state :=
  match body with
  | Parsed data =>
      let out := solve_puzzle cfg game_states session_id puzzle_id data in
      (Returned (fst out), snd out)
  | Aborted e =>
  match game_states !! session_id with
  | None => (Returned (Resp 404 (error_body "Game session not found")), game_states)
  | Some state =>
  match assoc puzzle_id (cfg_puzzles cfg) with
  | None => (Returned (Resp 404 (error_body "Puzzle not found")), game_states)
  | Some _ =>
  if completed state then
    (Returned (Resp 400 (error_body "Game already completed")), game_states)
  else
  match flag (puzzles state) puzzle_id with
  | Err e' => (Returned (Raise e'), game_states)
  | Ok true => (Returned (Resp 400 (error_body "Puzzle already solved")), game_states)
  | Ok false => (HttpError e, game_states)
  end
  end
  end
  end.

(** ** Basic facts *)

Lemma flag_Some d k b : d !! k = Some b -> flag d k = Ok b.
Proof. unfold flag. by intros ->. Qed.

Lemma assoc_elem_of {A} k (d : list (string * A)) v :
  assoc k d = Some v -> (k, v) ∈ d.
Proof.
  induction d as [|[k' v'] d IH]; simpl; [done|].
  case_decide as Hk.
  - intros [= ->]. subst. apply list_elem_of_here.
  - intros H. apply list_elem_of_further. auto.
Qed.

Lemma assoc_is_Some {A} k (d : list (string * A)) :
  is_Some (assoc k d) <-> k ∈ d.*1.
Proof.
  induction d as [|[k' v'] d IH]; simpl.
  - split; [by intros [? ?]|by intros ?%elem_of_nil].
  - case_decide as Hk.
    + subst. split; [intros _; apply list_elem_of_here|eauto].
    + rewrite IH, elem_of_cons. simpl. split; [by right|by intros [?|?]].
Qed.

Lemma py_max0_Qmax x : py_max0 x = Qmax 0 x.
Proof.
  unfold py_max0, Qmax, GenericMinMax.gmax.
  destruct (Qle_bool x 0) eqn:Hle.
  - apply Qle_bool_iff in Hle.
    destruct (0 ?= x)%Q eqn:Hc; try done.
    apply Qlt_alt in Hc. exfalso. by apply (Qlt_not_le _ _ Hc).
  - destruct (0 ?= x)%Q eqn:Hc; try done.
    + apply Qeq_alt in Hc. assert (x <= 0)%Q as Hx by (rewrite <- Hc; apply Qle_refl).
      apply Qle_bool_iff in Hx. congruence.
    + apply Qgt_alt in Hc. apply Qlt_le_weak in Hc.
      apply Qle_bool_iff in Hc. congruence.
Qed.

Lemma py_max0_nonneg x : (0 <= py_max0 x)%Q.
Proof.
  unfold py_max0. destruct (Qle_bool x 0) eqn:Hle; [apply Qle_refl|].
  destruct (Qlt_le_dec 0 x) as [H|H]; [by apply Qlt_le_weak|].
  apply Qle_bool_iff in H. congruence.
Qed.

Lemma py_max0_le_0 x : Qle_bool (py_max0 x) 0 = Qle_bool x 0.
Proof. unfold py_max0. by destruct (Qle_bool x 0) eqn:Hle. Qed.

Lemma py_max0_timed_out limit elapsed :
  (limit <= elapsed)%Q -> py_max0 (limit - elapsed) = 0%Q.
Proof.
  intros H. unfold py_max0.
  assert (limit - elapsed <= 0)%Q as Hle by lra.
  apply Qle_bool_iff in Hle. by rewrite Hle.
Qed.

(** On a non-negative reading [int] is the floor. *)
Lemma py_int_floor x : (0 <= x)%Q -> py_int x = Qfloor x.
Proof.
  destruct x as [n d]. unfold Qle, py_int, Qfloor. simpl. intros H.
  apply Z.quot_div_nonneg; lia.
Qed.

(** ** One request, seen from one session *)

Lemma lookup_update (gs : gmap string game_state) s sid st1 st' :
  <[s := st1]> gs !! sid = Some st' ->
  (s = sid /\ st' = st1) \/ (s ≠ sid /\ gs !! sid = Some st').
Proof.
  destruct (decide (s = sid)) as [->|Hne].
  - rewrite lookup_insert_eq. intros [= <-]. by left.
  - rewrite lookup_insert_ne by done. by right.
Qed.

Lemma find_item_Some pid (found : gmap string bool) its item_id item :
  find_item pid found its = Ok (Some (item_id, item)) ->
  (item_id, item) ∈ its /\ i_location item = pid /\ found !! item_id = Some false.
Proof.
  induction its as [|[k it] its IH]; simpl; [done|].
  case_decide as Hloc.
  - unfold flag. destruct (found !! k) as [[]|] eqn:Hk; simpl; try done.
    + intros H. destruct (IH H) as (? & ? & ?).
      split; [by apply list_elem_of_further|done].
    + intros [= <- <-]. split; [apply list_elem_of_here|done].
  - intros H. destruct (IH H) as (? & ? & ?).
    split; [by apply list_elem_of_further|done].
Qed.

Lemma timed_out_inv limit elapsed (c : bool) :
  Qle_bool (py_max0 (limit - elapsed)) 0 && negb c = true ->
  (limit <= elapsed)%Q /\ c = false.
Proof.
  rewrite py_max0_le_0. intros [H1 H2]%andb_prop.
  apply Qle_bool_iff in H1. split; [lra|by destruct c].
Qed.

(** The record of [sid] after a request is either a fresh record written
    by a [new_game] call that was handed the id [sid], or a successor of
    the record [sid] had before. *)
Lemma handle_lookup cfg r gs sid st' :
  snd (handle cfg r gs) !! sid = Some st' ->
  (exists t_id t_start, r = NewGame t_id t_start /\ pretty (py_int t_id) = sid /\
     st' = create_new_game_state cfg t_start) \/
  (exists st, gs !! sid = Some st /\ session_step cfg r sid st st').
Proof.
  assert (forall st, gs !! sid = Some st ->
    exists st0, gs !! sid = Some st0 /\ session_step cfg r sid st0 st) as Hsame.
  { intros st Hst. exists st. split; [done|constructor]. }
  destruct r as [t_id t_start|now s|s p data|s p]; simpl.
  - unfold new_game; simpl. intros [[<- ->]|[_ H]]%lookup_update; eauto 10.
  - unfold get_game_state.
    destruct (gs !! s) as [st0|] eqn:Hs; simpl; [|eauto].
    match goal with |- context [Qle_bool ?a 0 && ?b] =>
      destruct (Qle_bool a 0 && b) eqn:Hto end.
    + apply timed_out_inv in Hto as [Hle Hc].
      assert (<[s:=set_completed false st0]> gs !! sid = Some st' ->
        exists st, gs !! sid = Some st /\ session_step cfg (GetState now s) sid st st').
      { intros [[<- ->]|[_ H]]%lookup_update; [|eauto].
        exists st0. split; [done|]. by eapply step_timeout. }
      case_match; simpl; eauto.
    + case_match; simpl; eauto.
  - unfold solve_puzzle.
    destruct (gs !! s) as [st0|] eqn:Hs; simpl; [|eauto].
    destruct (assoc p (cfg_puzzles cfg)) as [pdef|]; simpl; [|eauto].
    destruct (completed st0) eqn:Hc; simpl; [eauto|].
    destruct (flag (puzzles st0) p) as [[]|]; simpl; [eauto| |eauto].
    destruct (json_get data "solution" (JStr "")) as [attempt|]; simpl; [|eauto].
    case_decide as Hdoor.
    + subst p.
      match goal with |- context [?m ≫= all_solved (puzzles st0)] =>
        destruct (m ≫= all_solved (puzzles st0)) as [[]|] end; simpl; [|eauto..].
      intros [[<- ->]|[_ H]]%lookup_update; [|eauto].
      right. exists st0. split; [done|]. by eapply step_door.
    + destruct (p_solution pdef) as [correct|]; simpl; [|eauto].
      destruct (json_lower attempt) as [a|]; simpl; [|eauto].
      case_decide as Heq; simpl; [|eauto].
      destruct (find_item p (items st0) (cfg_items cfg))
        as [[[item_id item]|]|] eqn:Hfind; simpl.
      * apply find_item_Some in Hfind as (Hin & Hloc & _).
        intros [[<- ->]|[_ H]]%lookup_update; [|eauto].
        right. exists st0. split; [done|]. by eapply step_revealed.
      * intros [[<- ->]|[_ H]]%lookup_update; [|eauto].
        right. exists st0. split; [done|]. by eapply step_solved.
      * intros [[<- ->]|[_ H]]%lookup_update; [|eauto].
        right. exists st0. split; [done|]. by eapply step_solved.
  - unfold get_hint.
    destruct (gs !! s) as [st0|] eqn:Hs; simpl; [|eauto].
    destruct (assoc p (cfg_puzzles cfg)); simpl; [|eauto].
    intros [[<- ->]|[_ H]]%lookup_update; [|eauto].
    right. exists st0. split; [done|]. by eapply step_hint.
Qed.

(** No handler removes a session. *)
Lemma handle_lookup_is_Some cfg r gs sid :
  is_Some (gs !! sid) -> is_Some (snd (handle cfg r gs) !! sid).
Proof.
  intros Hsid.
  assert (forall s st1, is_Some (<[s:=st1]> gs !! sid)) as Hins.
  { intros s st1. rewrite lookup_insert_is_Some'. by right. }
  destruct r as [t_id t_start|now s|s p data|s p]; simpl.
  - apply Hins.
  - unfold get_game_state. repeat case_match; simpl; auto.
  - unfold solve_puzzle. repeat case_match; simpl; auto.
  - unfold get_hint. repeat case_match; simpl; auto.
Qed.

(** ** Invariants along runs *)

Lemma elem_of_keys_unique {A} (d : list (string * A)) k v1 v2 :
  NoDup d.*1 -> (k, v1) ∈ d -> (k, v2) ∈ d -> v1 = v2.
Proof.
  intros Hnd H1 H2.
  pose proof (elem_of_list_to_map_1 (M := gmap string) d k v1 Hnd H1) as E1.
  pose proof (elem_of_list_to_map_1 (M := gmap string) d k v2 Hnd H2) as E2.
  congruence.
Qed.

Lemma fresh_flags_lookup {A} (d : list (string * A)) k :
  k ∈ d.*1 ->
  (list_to_map (map (fun kv => (fst kv, false)) d) : gmap string bool) !! k = Some false.
Proof.
  intros Hk.
  destruct (list_to_map (map (fun kv => (kv.1, false)) d) !! k) as [b|] eqn:E.
  - apply elem_of_list_to_map_2 in E.
    apply list_elem_of_In, in_map_iff in E as ([k' v] & [= _ <-] & _). done.
  - apply not_elem_of_list_to_map in E. exfalso. apply E.
    rewrite <- list_fmap_compose. done.
Qed.

Lemma fresh_flags_false {A} (d : list (string * A)) k b :
  (list_to_map (map (fun kv => (fst kv, false)) d) : gmap string bool) !! k = Some b ->
  b = false.
Proof.
  intros E. apply elem_of_list_to_map_2 in E.
  by apply list_elem_of_In, in_map_iff in E as ([k' v] & [= _ <-] & _).
Qed.

Lemma create_new_game_state_wf cfg t : wf_state cfg (create_new_game_state cfg t).
Proof. split; intros k Hk; simpl; rewrite fresh_flags_lookup; eauto. Qed.

Lemma create_new_game_state_items cfg t :
  items_follow_puzzles cfg (create_new_game_state cfg t).
Proof. intros k it _ Hk. simpl in Hk. by apply fresh_flags_false in Hk. Qed.

Lemma session_step_wf cfg r sid st st' :
  session_step cfg r sid st st' -> wf_state cfg st -> wf_state cfg st'.
Proof.
  intros Hstep [Hp Hi].
  destruct Hstep; split; simpl; intros k Hk;
    rewrite ?lookup_insert_is_Some'; auto.
Qed.

Lemma session_step_items cfg r sid st st' :
  NoDup (cfg_items cfg).*1 ->
  session_step cfg r sid st st' ->
  items_follow_puzzles cfg st -> items_follow_puzzles cfg st'.
Proof.
  intros Hnd Hstep Hinv.
  assert (forall p k it, (k, it) ∈ cfg_items cfg -> items st !! k = Some true ->
            <[p:=true]> (puzzles st) !! i_location it = Some true) as Hkeep.
  { intros p k it Hin Hk. rewrite lookup_insert. case_decide; eauto. }
  destruct Hstep; intros k it Hin; simpl; eauto.
  destruct (decide (item_id = k)) as [->|Hne].
  - intros _. rewrite (elem_of_keys_unique _ _ _ _ Hnd Hin H1).
    subst pid. apply lookup_insert_eq.
  - rewrite lookup_insert_ne by done. eauto.
Qed.

Lemma session_step_flags_kept cfg r sid st st' :
  session_step cfg r sid st st' -> flags_kept st st'.
Proof.
  intros Hstep.
  assert (forall q p, puzzles st !! p = Some true ->
            <[q:=true]> (puzzles st) !! p = Some true) as Hkeep.
  { intros q p Hp. rewrite lookup_insert. by case_decide. }
  destruct Hstep; split; simpl; auto.
Qed.

Lemma flags_kept_refl st : flags_kept st st.
Proof. by split. Qed.

Lemma flags_kept_trans st1 st2 st3 :
  flags_kept st1 st2 -> flags_kept st2 st3 -> flags_kept st1 st3.
Proof. intros [H1 H2] [H3 H4]. split; auto. Qed.

(** Every record of a reachable store carries the flags of every key of
    the registry. *)
Lemma reachable_wf cfg gs sid st :
  reachable cfg gs -> gs !! sid = Some st -> wf_state cfg st.
Proof.
  intros Hr. revert sid st.
  induction Hr as [|r gs Hr IH]; intros sid st Hst.
  - by rewrite lookup_empty in Hst.
  - apply handle_lookup in Hst as [(t_id & t_start & _ & _ & ->)|(st0 & Hst0 & Hstep)].
    + apply create_new_game_state_wf.
    + eapply session_step_wf; eauto.
Qed.

Lemma reachable_items_follow_puzzles cfg gs sid st :
  NoDup (cfg_items cfg).*1 ->
  reachable cfg gs -> gs !! sid = Some st -> items_follow_puzzles cfg st.
Proof.
  intros Hnd Hr. revert sid st.
  induction Hr as [|r gs Hr IH]; intros sid st Hst.
  - by rewrite lookup_empty in Hst.
  - apply handle_lookup in Hst as [(t_id & t_start & _ & _ & ->)|(st0 & Hst0 & Hstep)].
    + apply create_new_game_state_items.
    + eapply session_step_items; eauto.
Qed.

Lemma run_reachable cfg rs gs : reachable cfg gs -> reachable cfg (run cfg rs gs).
Proof.
  revert gs. induction rs as [|r rs IH]; intros gs Hr; simpl; [done|].
  apply IH. by constructor.
Qed.

Lemma GAME_CONFIG_items_NoDup : NoDup (cfg_items GAME_CONFIG).*1.
Proof. apply (bool_decide_unpack _). by vm_compute. Qed.

(** Along a run that never hands the id [sid] to [new_game], the session
    stays in the store and its flags never go back to false. *)
Lemma run_flags_kept cfg rs gs sid st :
  fresh_ids sid rs -> gs !! sid = Some st ->
  exists st', run cfg rs gs !! sid = Some st' /\ flags_kept st st'.
Proof.
  revert gs st. induction rs as [|r rs IH]; intros gs st Hfresh Hst; simpl.
  - exists st. split; [done|apply flags_kept_refl].
  - destruct (handle_lookup_is_Some cfg r gs sid) as [st1 Hst1]; [eauto|].
    assert (flags_kept st st1) as Hk1.
    { pose proof Hst1 as Hst1'.
      apply handle_lookup in Hst1' as [(t_id & t_start & -> & Hid & _)|(st0 & Hst0 & Hstep)].
      - exfalso. apply (Hfresh t_id t_start); [apply list_elem_of_here|done].
      - rewrite Hst in Hst0. injection Hst0 as <-.
        by eapply session_step_flags_kept. }
    destruct (IH (snd (handle cfg r gs)) st1) as (st' & Hst' & Hk'); [|done|].
    { intros t_id t_start Hin. apply (Hfresh t_id t_start). by apply list_elem_of_further. }
    exists st'. split; [done|]. by eapply flags_kept_trans.
Qed.

(** ** The loops of the handlers on well-formed records *)

Lemma puzzles_view_wf (d : gmap string bool) ps :
  (forall k, k ∈ ps.*1 -> is_Some (d !! k)) ->
  puzzles_view d ps =
    Ok (map (fun kv => (fst kv, puzzle_entry (default false (d !! fst kv)) (snd kv))) ps).
Proof.
  induction ps as [|[k p] ps IH]; intros Hwf; simpl; [done|].
  destruct (Hwf k) as [b Hb]; [apply list_elem_of_here|].
  rewrite (flag_Some _ _ _ Hb), Hb. simpl.
  rewrite IH; [done|]. intros k' Hk'. apply Hwf. by apply list_elem_of_further.
Qed.

Lemma items_view_wf (d : gmap string bool) its :
  (forall k, k ∈ its.*1 -> is_Some (d !! k)) ->
  items_view d its =
    Ok (map (fun kv => (fst kv,
               item_entry (default false (d !! fst kv))
                 (if default false (d !! fst kv)
                  then i_description (snd kv) else "???"))) its).
Proof.
  induction its as [|[k it] its IH]; intros Hwf; simpl; [done|].
  destruct (Hwf k) as [b Hb]; [apply list_elem_of_here|].
  rewrite (flag_Some _ _ _ Hb), Hb. simpl.
  rewrite IH; [done|]. intros k' Hk'. apply Hwf. by apply list_elem_of_further.
Qed.

(** [all] over the prerequisites, once each of them has a flag. *)
Lemma all_solved_wf (d : gmap string bool) required :
  (forall p, p ∈ required -> is_Some (d !! p)) ->
  all_solved d required =
    Ok (bool_decide (Forall (fun p => d !! p = Some true) required)).
Proof.
  induction required as [|p required IH]; intros Hwf; simpl all_solved.
  - done.
  - destruct (Hwf p) as [b Hb]; [apply list_elem_of_here|].
    rewrite (flag_Some _ _ _ Hb). simpl mbind. destruct b.
    + rewrite IH by (intros q Hq; apply Hwf; by apply list_elem_of_further).
      f_equal. apply bool_decide_ext. rewrite Forall_cons. tauto.
    + rewrite bool_decide_eq_false_2; [done|].
      rewrite Forall_cons. intros [H _]. congruence.
Qed.

(** The search of [solve_puzzle] returns the first entry, in the order of
    the registry, that is located at the puzzle and not yet found. *)
Lemma find_item_first pid (d : gmap string bool) its :
  (forall k, k ∈ its.*1 -> is_Some (d !! k)) ->
  (find_item pid d its = Ok None /\
   forall k it, (k, it) ∈ its -> i_location it = pid -> d !! k = Some true) \/
  (exists pre item_id item post,
     find_item pid d its = Ok (Some (item_id, item)) /\
     its = (pre ++ (item_id, item) :: post)%list /\
     i_location item = pid /\ d !! item_id = Some false /\
     forall k it, (k, it) ∈ pre -> i_location it = pid -> d !! k = Some true).
Proof.
  induction its as [|[k0 it0] its IH]; intros Hwf.
  - left. split; [done|]. by intros k it ?%elem_of_nil.
  - assert (forall k, k ∈ its.*1 -> is_Some (d !! k)) as Hwf'.
    { intros k Hk. apply Hwf. by apply list_elem_of_further. }
    destruct (Hwf k0) as [b Hb]; [apply list_elem_of_here|].
    simpl. case_decide as Hloc.
    + rewrite (flag_Some _ _ _ Hb). simpl. destruct b.
      * destruct (IH Hwf') as [[Hnone Hall]|(pre & i & it & post & Hf & -> & ? & ? & Hpre)].
        { left. split; [done|]. intros k it [[= -> ->]|Hin]%elem_of_cons; eauto. }
        { right. exists ((k0, it0) :: pre), i, it, post.
          repeat split; try done.
          intros k it' [[= -> ->]|Hin]%elem_of_cons; eauto. }
      * right. exists [], k0, it0, its. repeat split; try done.
        by intros k it ?%elem_of_nil.
    + destruct (IH Hwf') as [[Hnone Hall]|(pre & i & it & post & Hf & -> & ? & ? & Hpre)].
      { left. split; [done|]. intros k it [[= -> ->]|Hin]%elem_of_cons; eauto. done. }
      { right. exists ((k0, it0) :: pre), i, it, post.
        repeat split; try done.
        intros k it' [[= -> ->]|Hin]%elem_of_cons; eauto. done. }
Qed.

(** ** The branches of [solve_puzzle] *)

Section SolveBranches.
Variable cfg : config.
Variables (gs : gmap string game_state) (sid pid : string) (st : game_state).
Hypothesis Hsession : gs !! sid = Some st.

Lemma solve_completed pdef data :
  assoc pid (cfg_puzzles cfg) = Some pdef ->
  completed st = true ->
  solve_puzzle cfg gs sid pid data =
    (Resp 400 (error_body "Game already completed"), gs).
Proof. intros Hp Hc. unfold solve_puzzle. by rewrite Hsession, Hp, Hc. Qed.

Lemma solve_already_solved pdef data :
  assoc pid (cfg_puzzles cfg) = Some pdef ->
  completed st = false ->
  puzzles st !! pid = Some true ->
  solve_puzzle cfg gs sid pid data =
    (Resp 400 (error_body "Puzzle already solved"), gs).
Proof.
  intros Hp Hc Hs. unfold solve_puzzle.
  by rewrite Hsession, Hp, Hc, (flag_Some _ _ _ Hs).
Qed.

Lemma solve_wrong pdef sol kvs text :
  assoc pid (cfg_puzzles cfg) = Some pdef ->
  completed st = false ->
  puzzles st !! pid = Some false ->
  pid ≠ "door" ->
  p_solution pdef = Some sol ->
  json_get (JObj kvs) "solution" (JStr "") = Ok (JStr text) ->
  lower text ≠ lower sol ->
  solve_puzzle cfg gs sid pid (JObj kvs) = (incorrect_answer, gs).
Proof.
  intros Hp Hc Hs Hdoor Hsol Hget Hne. unfold solve_puzzle.
  rewrite Hsession, Hp, Hc, (flag_Some _ _ _ Hs), Hget.
  rewrite decide_False by done. rewrite Hsol. simpl.
  by rewrite decide_False.
Qed.

Lemma solve_right pdef sol kvs text :
  assoc pid (cfg_puzzles cfg) = Some pdef ->
  completed st = false ->
  puzzles st !! pid = Some false ->
  pid ≠ "door" ->
  p_solution pdef = Some sol ->
  json_get (JObj kvs) "solution" (JStr "") = Ok (JStr text) ->
  lower text = lower sol ->
  solve_puzzle cfg gs sid pid (JObj kvs) =
    match find_item pid (items st) (cfg_items cfg) with
    | Err e => (Raise e, <[sid := set_puzzle_solved pid st]> gs)
    | Ok (Some (item_id, item)) =>
        (Resp 200 (JObj [("success", JBool true);
                         ("message", JStr ("Puzzle solved! You found: " ++ i_description item));
                         ("item_found", JStr item_id)]),
         <[sid := set_item_found item_id (set_puzzle_solved pid st)]> gs)
    | Ok None =>
        (Resp 200 (JObj [("success", JBool true); ("message", JStr "Puzzle solved!")]),
         <[sid := set_puzzle_solved pid st]> gs)
    end.
Proof.
  intros Hp Hc Hs Hdoor Hsol Hget Heq. unfold solve_puzzle.
  rewrite Hsession, Hp, Hc, (flag_Some _ _ _ Hs), Hget.
  rewrite decide_False by done. rewrite Hsol. simpl.
  by rewrite decide_True.
Qed.

Lemma solve_door pdef required kvs :
  pid = "door" ->
  assoc "door" (cfg_puzzles cfg) = Some pdef ->
  p_requires pdef = Some required ->
  (forall p, p ∈ required -> is_Some (puzzles st !! p)) ->
  completed st = false ->
  puzzles st !! "door" = Some false ->
  solve_puzzle cfg gs sid pid (JObj kvs) =
    if bool_decide (Forall (fun p => puzzles st !! p = Some true) required)
    then (victory, <[sid := set_completed true (set_puzzle_solved "door" st)]> gs)
    else (prerequisites_unmet, gs).
Proof.
  intros -> Hp Hreq Hwf Hc Hs. unfold solve_puzzle.
  rewrite Hsession, Hp, Hc, (flag_Some _ _ _ Hs). simpl.
  rewrite Hreq. simpl. rewrite (all_solved_wf _ _ Hwf).
  by destruct (bool_decide _).
Qed.

End SolveBranches.

(** ** The sample runs are reachable *)

Lemma store_fresh_reachable : reachable GAME_CONFIG store_fresh.
Proof. apply run_reachable, reachable_init. Qed.

Lemma store_safe_reachable : reachable GAME_CONFIG store_safe.
Proof. apply run_reachable, store_fresh_reachable. Qed.

Lemma store_three_reachable : reachable GAME_CONFIG store_three.
Proof. apply run_reachable, store_safe_reachable. Qed.

Lemma store_escaped_reachable : reachable GAME_CONFIG store_escaped.
Proof. apply run_reachable, store_three_reachable. Qed.

Lemma store_clock_reachable : reachable GAME_CONFIG store_clock.
Proof. apply run_reachable, reachable_init. Qed.

(** ** The exit door *)

Lemma solve_door_game gs sid st kvs :
  reachable GAME_CONFIG gs ->
  gs !! sid = Some st ->
  completed st = false ->
  puzzles st !! "door" = Some false ->
  solve_puzzle GAME_CONFIG gs sid "door" (JObj kvs) =
    if bool_decide (Forall (fun p => puzzles st !! p = Some true)
                           ["safe"; "bookshelf"; "computer"])
    then (victory, <[sid := set_completed true (set_puzzle_solved "door" st)]> gs)
    else (prerequisites_unmet, gs).
Proof.
  intros Hr Hs Hc Hd.
  destruct (reachable_wf _ _ _ _ Hr Hs) as [Hwf _].
  eapply solve_door; try done.
  intros p Hp. apply Hwf. simpl. revert Hp. rewrite !elem_of_cons. tauto.
Qed.

(** C1. In an active session whose door is unsolved, an attempt on the
    puzzle ["door"] does not depend on the submitted body; it succeeds
    exactly when the safe, the bookshelf and the computer are all solved.
    On success the answer is the victory message and the record gets
    ["door"] solved, [completed = True] and [success = True]; otherwise the
    answer is a status-200 failure with [success: false] and the store is
    unchanged, so the session stays active. *)
Theorem door_attempt gs sid st kvs :
  reachable GAME_CONFIG gs ->
  gs !! sid = Some st ->
  completed st = false ->
  puzzles st !! "door" = Some false ->
  let solved := Forall (fun p => puzzles st !! p = Some true)
                       ["safe"; "bookshelf"; "computer"] in
  let out := solve_puzzle GAME_CONFIG gs sid "door" (JObj kvs) in
  (forall kvs', solve_puzzle GAME_CONFIG gs sid "door" (JObj kvs') = out) /\
  (resp_field (fst out) "success" = Some (JBool true) <-> solved) /\
  (solved ->
     fst out = victory /\
     snd out = <[sid := set_completed true (set_puzzle_solved "door" st)]> gs /\
     exists st', snd out !! sid = Some st' /\
       puzzles st' !! "door" = Some true /\
       completed st' = true /\ success st' = Some true) /\
  (~ solved ->
     fst out = prerequisites_unmet /\ non_fatal_failure (fst out) /\
     snd out = gs /\ snd out !! sid = Some st).
Proof.
  intros Hr Hs Hc Hd solved out.
  assert (forall kvs', solve_puzzle GAME_CONFIG gs sid "door" (JObj kvs') =
    if bool_decide solved
    then (victory, <[sid := set_completed true (set_puzzle_solved "door" st)]> gs)
    else (prerequisites_unmet, gs)) as Hout.
  { intros kvs'. by apply solve_door_game. }
  subst out. split; [intros kvs'; by rewrite !Hout|].
  rewrite Hout. destruct (bool_decide_reflect solved) as [Hyes|Hno]; simpl.
  - split; [done|]. split; [|done]. intros _. repeat split.
    eexists. rewrite lookup_insert_eq. split; [done|]. simpl.
    by rewrite lookup_insert_eq.
  - split; [split; [done|intros ?; done]|]. split; [done|]. intros _.
    repeat split; try done. by eexists.
Qed.

Lemma door_attempt_witness :
  fst (solve_puzzle GAME_CONFIG store_fresh "1000" "door" (solution "open sesame"))
    = prerequisites_unmet /\
  fst (solve_puzzle GAME_CONFIG store_three "1000" "door" (solution "open sesame"))
    = victory.
Proof.
  split.
  - refine (proj1 (proj2 (proj2 (proj2
      (door_attempt store_fresh "1000" (get_session store_fresh "1000") _
         store_fresh_reachable _ _ _))) _)).
    + reflexivity.
    + reflexivity.
    + reflexivity.
    + vm_compute. intros H. inversion H. discriminate.
  - refine (proj1 (proj1 (proj2 (proj2
      (door_attempt store_three "1000" (get_session store_three "1000") _
         store_three_reachable _ _ _))) _)).
    + reflexivity.
    + reflexivity.
    + reflexivity.
    + vm_compute. repeat constructor.
Defined.

(** ** Rejected attempts *)

(** C6, as the handler behaves.  A wrong answer and unmet door
    prerequisites are answered with status 200, [success: false] and a
    message.  An attempt on a completed session and an attempt on a solved
    puzzle are answered with status 400 and an [error] message, without a
    [success] field.  In all four cases the store is unchanged. *)
Theorem rejected_attempts gs sid st pid pdef data :
  reachable GAME_CONFIG gs ->
  gs !! sid = Some st ->
  assoc pid (cfg_puzzles GAME_CONFIG) = Some pdef ->
  let out := solve_puzzle GAME_CONFIG gs sid pid data in
  (completed st = true ->
     out = (Resp 400 (error_body "Game already completed"), gs)) /\
  (completed st = false -> puzzles st !! pid = Some true ->
     out = (Resp 400 (error_body "Puzzle already solved"), gs)) /\
  (completed st = false -> puzzles st !! pid = Some false -> pid ≠ "door" ->
     forall sol text,
       p_solution pdef = Some sol ->
       json_get data "solution" (JStr "") = Ok (JStr text) ->
       lower text ≠ lower sol ->
       out = (incorrect_answer, gs) /\ non_fatal_failure (fst out)) /\
  (completed st = false -> puzzles st !! pid = Some false -> pid = "door" ->
     (exists kvs, data = JObj kvs) ->
     ~ Forall (fun p => puzzles st !! p = Some true) ["safe"; "bookshelf"; "computer"] ->
     out = (prerequisites_unmet, gs) /\ non_fatal_failure (fst out)).
Proof.
  intros Hr Hs Hp out. subst out.
  assert (forall sol text,
    completed st = false -> puzzles st !! pid = Some false -> pid ≠ "door" ->
    p_solution pdef = Some sol ->
    json_get data "solution" (JStr "") = Ok (JStr text) ->
    lower text ≠ lower sol ->
    solve_puzzle GAME_CONFIG gs sid pid data = (incorrect_answer, gs)) as Hwrong.
  { intros sol text Hc Hflag Hdoor Hsol Hget Hne.
    destruct data; try done. by eapply solve_wrong. }
  split; [|split; [|split]].
  - intros Hc. by eapply solve_completed.
  - intros Hc Hsolved. by eapply solve_already_solved.
  - intros Hc Hflag Hdoor sol text Hsol Hget Hne.
    rewrite (Hwrong sol text) by done. split; [done|by eexists].
  - intros Hc Hflag -> [kvs ->] Hunmet.
    rewrite (solve_door_game gs sid st kvs) by done.
    rewrite bool_decide_eq_false_2 by done. split; [done|by eexists].
Qed.

Lemma rejected_attempts_witness :
  solve_puzzle GAME_CONFIG store_escaped "1000" "computer" (solution "password")
    = (Resp 400 (error_body "Game already completed"), store_escaped) /\
  solve_puzzle GAME_CONFIG store_safe "1000" "safe" (solution "1234")
    = (Resp 400 (error_body "Puzzle already solved"), store_safe) /\
  solve_puzzle GAME_CONFIG store_safe "1000" "computer" (solution "letmein")
    = (incorrect_answer, store_safe) /\
  solve_puzzle GAME_CONFIG store_safe "1000" "door" (solution "")
    = (prerequisites_unmet, store_safe).
Proof.
  split; [|split; [|split]].
  - refine (proj1 (rejected_attempts store_escaped "1000"
      (get_session store_escaped "1000") "computer" _ _
      store_escaped_reachable _ _) _); reflexivity.
  - refine (proj1 (proj2 (rejected_attempts store_safe "1000"
      (get_session store_safe "1000") "safe" _ _
      store_safe_reachable _ _)) _ _); reflexivity.
  - refine (proj1 (proj1 (proj2 (proj2 (rejected_attempts store_safe "1000"
      (get_session store_safe "1000") "computer" _ _
      store_safe_reachable _ _))) _ _ _ "password" "letmein" _ _ _));
      try reflexivity; vm_compute; discriminate.
  - refine (proj1 (proj2 (proj2 (proj2 (rejected_attempts store_safe "1000"
      (get_session store_safe "1000") "door" _ _
      store_safe_reachable _ _))) _ _ _ _ _)); try reflexivity.
    + eexists. reflexivity.
    + vm_compute. intros H. inversion H as [|? ? _ H']. inversion H'. discriminate.
Defined.

(** C6 as stated fails: an attempt on a completed session, and an attempt
    on an already solved puzzle, are answered with status 400 and an
    [error] field, not with a status-200 [success: false] payload. *)
Lemma rejected_attempts_counterexample :
  completed (get_session store_escaped "1000") = true /\
  fst (solve_puzzle GAME_CONFIG store_escaped "1000" "computer" (solution "password"))
    = Resp 400 (error_body "Game already completed") /\
  ~ non_fatal_failure
      (fst (solve_puzzle GAME_CONFIG store_escaped "1000" "computer" (solution "password"))) /\
  puzzles (get_session store_safe "1000") !! "safe" = Some true /\
  fst (solve_puzzle GAME_CONFIG store_safe "1000" "safe" (solution "1234"))
    = Resp 400 (error_body "Puzzle already solved") /\
  ~ non_fatal_failure
      (fst (solve_puzzle GAME_CONFIG store_safe "1000" "safe" (solution "1234"))).
Proof.
  repeat split; try reflexivity; intros [msg Hmsg]; vm_compute in Hmsg; discriminate.
Qed.

(** ** A body without the ["solution"] key *)

Lemma solve_puzzle_json_get cfg gs sid pid data1 data2 :
  json_get data1 "solution" (JStr "") = json_get data2 "solution" (JStr "") ->
  solve_puzzle cfg gs sid pid data1 = solve_puzzle cfg gs sid pid data2.
Proof. intros H. unfold solve_puzzle. by rewrite H. Qed.

Lemma solve_puzzle_door_any_body cfg gs sid kvs kvs' :
  solve_puzzle cfg gs sid "door" (JObj kvs) = solve_puzzle cfg gs sid "door" (JObj kvs').
Proof. unfold solve_puzzle. repeat case_match; simplify_eq/=; done. Qed.

Lemma lower_nonempty s : s ≠ "" -> lower s ≠ lower "".
Proof. by destruct s. Qed.

Lemma GAME_CONFIG_solutions_nonempty k pdef sol :
  (k, pdef) ∈ cfg_puzzles GAME_CONFIG -> p_solution pdef = Some sol -> sol ≠ "".
Proof.
  simpl. rewrite !elem_of_cons, elem_of_nil.
  intros [H|[H|[H|[H|[]]]]]; injection H as -> ->; simpl; intros [= <-]; done.
Qed.

(** C10, as the handler behaves.  A JSON object without the key
    ["solution"] is handled exactly like the body [{"solution": ""}].
    Every solution of the registry is non-empty, so such a request on a
    puzzle other than the door that is not yet solved, in an active
    session, gets the incorrect-answer failure and leaves the store
    unchanged; on the door it gets what any other object body gets. *)
Theorem omitted_solution gs sid pid kvs :
  assoc "solution" kvs = None ->
  (forall cfg,
     solve_puzzle cfg gs sid pid (JObj kvs) = solve_puzzle cfg gs sid pid (solution "")) /\
  (forall k pdef sol,
     (k, pdef) ∈ cfg_puzzles GAME_CONFIG -> p_solution pdef = Some sol -> sol ≠ "") /\
  (forall st,
     gs !! sid = Some st -> completed st = false ->
     pid ∈ (cfg_puzzles GAME_CONFIG).*1 -> pid ≠ "door" ->
     puzzles st !! pid = Some false ->
     solve_puzzle GAME_CONFIG gs sid pid (JObj kvs) = (incorrect_answer, gs)) /\
  (forall kvs',
     solve_puzzle GAME_CONFIG gs sid "door" (JObj kvs) =
     solve_puzzle GAME_CONFIG gs sid "door" (JObj kvs')).
Proof.
  intros Hkey. split; [|split; [|split]].
  - intros cfg. apply solve_puzzle_json_get. simpl. by rewrite Hkey.
  - apply GAME_CONFIG_solutions_nonempty.
  - intros st Hs Hc Hin Hdoor Hp.
    apply assoc_is_Some in Hin as [pdef Hpdef].
    destruct (p_solution pdef) as [sol|] eqn:Hsol.
    + eapply solve_wrong; eauto.
      * simpl. by rewrite Hkey.
      * intros Heq. symmetry in Heq. revert Heq. apply lower_nonempty.
        eapply GAME_CONFIG_solutions_nonempty; eauto using assoc_elem_of.
    + exfalso. apply assoc_elem_of in Hpdef. revert Hpdef Hsol Hdoor. simpl.
      rewrite !elem_of_cons, elem_of_nil.
      intros [H|[H|[H|[H|[]]]]]; injection H as -> ->; simpl; done.
  - intros kvs'. apply solve_puzzle_door_any_body.
Qed.

Lemma omitted_solution_witness :
  solve_puzzle GAME_CONFIG store_fresh "1000" "safe" (JObj [])
    = (incorrect_answer, store_fresh) /\
  solve_puzzle GAME_CONFIG store_fresh "1000" "safe" (JObj [])
    = solve_puzzle GAME_CONFIG store_fresh "1000" "safe" (solution "").
Proof.
  split.
  - refine (proj1 (proj2 (proj2 (omitted_solution store_fresh "1000" "safe" [] _)))
      (get_session store_fresh "1000") _ _ _ _ _); try reflexivity.
    + vm_compute. apply list_elem_of_here.
    + discriminate.
  - refine (proj1 (omitted_solution store_fresh "1000" "safe" [] _) GAME_CONFIG).
    reflexivity.
Defined.

(** C10 as stated fails: in an active session whose safe is already
    solved, a body without ["solution"] sent to the safe is answered with
    status 400 "Puzzle already solved", not with the incorrect-answer
    failure. *)
Lemma omitted_solution_counterexample :
  completed (get_session store_safe "1000") = false /\
  "safe" ≠ "door" /\
  fst (solve_puzzle GAME_CONFIG store_safe "1000" "safe" (JObj []))
    = Resp 400 (error_body "Puzzle already solved") /\
  fst (solve_puzzle GAME_CONFIG store_safe "1000" "safe" (JObj [])) ≠ incorrect_answer.
Proof. repeat split; try reflexivity; discriminate. Qed.

(** ** Hints *)

Lemma get_hint_ok cfg gs sid pid st :
  gs !! sid = Some st -> is_Some (assoc pid (cfg_puzzles cfg)) ->
  get_hint cfg gs sid pid =
    (Resp 200 (JObj [("hint", JStr (default "No hint available for this puzzle."
                                      (assoc pid hints)));
                     ("hints_used", JInt (hints_used st + 1))]),
     <[sid := incr_hints_used st]> gs).
Proof. intros Hs [pdef Hp]. unfold get_hint. by rewrite Hs, Hp. Qed.

Lemma get_hint_repeat cfg gs sid pid st n :
  gs !! sid = Some st -> is_Some (assoc pid (cfg_puzzles cfg)) ->
  exists st',
    run cfg (replicate n (Hint sid pid)) gs = <[sid := st']> gs /\
    hints_used st' = hints_used st + Z.of_nat n /\
    start_time st' = start_time st /\ puzzles st' = puzzles st /\
    items st' = items st /\ completed st' = completed st /\
    success st' = success st.
Proof.
  intros Hs Hp. revert gs st Hs.
  induction n as [|n IH]; intros gs st Hs.
  - exists st. simpl. rewrite insert_id by done. repeat split; lia.
  - simpl run. rewrite (get_hint_ok _ _ _ _ _ Hs Hp). simpl snd.
    destruct (IH (<[sid := incr_hints_used st]> gs) (incr_hints_used st))
      as (st' & Hrun & Hh & ? & ? & ? & ? & ?); [apply lookup_insert_eq|].
    exists st'. rewrite Hrun, insert_insert_eq. repeat split; try done.
    rewrite Hh. simpl. lia.
Qed.

(** C7. [get_hint] answers 404 for an unknown session id and for an
    unknown puzzle id and then leaves the store, hence [hints_used],
    unchanged.  For a known session and a known puzzle, whether or not the
    session is completed, it adds exactly one to [hints_used], changes no
    other field of the record and no other record, and returns the hint
    text stored under the puzzle id, or the fallback text when there is
    none; [n] calls in a row add [n], for every [n]. *)
Theorem hint_counts cfg gs sid pid :
  let out := get_hint cfg gs sid pid in
  (gs !! sid = None ->
     out = (Resp 404 (error_body "Game session not found"), gs)) /\
  (assoc pid (cfg_puzzles cfg) = None ->
     resp_status (fst out) = Some 404 /\ snd out = gs) /\
  (forall st,
     gs !! sid = Some st -> is_Some (assoc pid (cfg_puzzles cfg)) ->
     resp_status (fst out) = Some 200 /\
     resp_field (fst out) "hint" =
       Some (JStr (match assoc pid hints with
                   | Some text => text
                   | None => "No hint available for this puzzle."
                   end)) /\
     resp_field (fst out) "hints_used" = Some (JInt (hints_used st + 1)) /\
     exists st',
       snd out = <[sid := st']> gs /\
       hints_used st' = hints_used st + 1 /\
       start_time st' = start_time st /\ puzzles st' = puzzles st /\
       items st' = items st /\ completed st' = completed st /\
       success st' = success st) /\
  (forall st n,
     gs !! sid = Some st -> is_Some (assoc pid (cfg_puzzles cfg)) ->
     exists st',
       run cfg (replicate n (Hint sid pid)) gs = <[sid := st']> gs /\
       hints_used st' = hints_used st + Z.of_nat n /\
       start_time st' = start_time st /\ puzzles st' = puzzles st /\
       items st' = items st /\ completed st' = completed st /\
       success st' = success st).
Proof.
  intros out. subst out. split; [|split; [|split]].
  - intros Hs. unfold get_hint. by rewrite Hs.
  - intros Hp. unfold get_hint. rewrite Hp. by destruct (gs !! sid).
  - intros st Hs Hp. rewrite (get_hint_ok _ _ _ _ _ Hs Hp). simpl.
    repeat split; try done.
    by exists (incr_hints_used st).
  - intros st n. apply get_hint_repeat.
Qed.

Lemma hint_counts_witness :
  get_hint GAME_CONFIG store_escaped "2000" "safe"
    = (Resp 404 (error_body "Game session not found"), store_escaped) /\
  snd (get_hint GAME_CONFIG store_escaped "1000" "window") = store_escaped /\
  resp_field (fst (get_hint GAME_CONFIG store_escaped "1000" "door")) "hints_used"
    = Some (JInt 1).
Proof.
  split; [|split].
  - refine (proj1 (hint_counts GAME_CONFIG store_escaped "2000" "safe") _).
    reflexivity.
  - refine (proj2 (proj1 (proj2 (hint_counts GAME_CONFIG store_escaped "1000" "window")) _)).
    reflexivity.
  - refine (proj1 (proj2 (proj2 (proj1 (proj2 (proj2
      (hint_counts GAME_CONFIG store_escaped "1000" "door")))
      (get_session store_escaped "1000") _ _)))).
    + reflexivity.
    + vm_compute. eexists. reflexivity.
Defined.

(** ** Reading the state *)

Lemma get_game_state_ok cfg now gs sid st :
  gs !! sid = Some st -> wf_state cfg st ->
  let time_remaining :=
    py_max0 (inject_Z (cfg_time_limit cfg) - (now - start_time st))%Q in
  let timed_out := Qle_bool time_remaining 0 && negb (completed st) in
  get_game_state cfg now gs sid =
    if timed_out
    then (Resp 200 (view_of cfg time_remaining (set_completed false st)),
          <[sid := set_completed false st]> gs)
    else (Resp 200 (view_of cfg time_remaining st), gs).
Proof.
  intros Hs [Hp Hi]. cbv zeta. unfold get_game_state. rewrite Hs.
  destruct (Qle_bool _ 0 && negb (completed st)); simpl;
    by rewrite (puzzles_view_wf _ _ Hp), (items_view_wf _ _ Hi).
Qed.

Lemma get_game_state_timed_out cfg now gs sid st :
  gs !! sid = Some st -> wf_state cfg st ->
  (inject_Z (cfg_time_limit cfg) <= now - start_time st)%Q ->
  completed st = false ->
  get_game_state cfg now gs sid =
    (Resp 200 (view_of cfg 0 (set_completed false st)),
     <[sid := set_completed false st]> gs).
Proof.
  intros Hs Hwf Hle Hc. rewrite (get_game_state_ok _ _ _ _ _ Hs Hwf).
  rewrite (py_max0_timed_out _ _ Hle), Hc. done.
Qed.

(** Only a timed-out read takes a record from active to completed without
    success. *)
Lemma timeout_only_on_read cfg r gs sid st st' :
  gs !! sid = Some st -> completed st = false ->
  snd (handle cfg r gs) !! sid = Some st' ->
  completed st' = true -> success st' = Some false ->
  exists now, r = GetState now sid /\
    (inject_Z (cfg_time_limit cfg) <= now - start_time st)%Q /\
    st' = set_completed false st.
Proof.
  intros Hs Hc Hs' Hc' Hsucc.
  apply handle_lookup in Hs' as [(t_id & t_start & _ & _ & ->)|(st0 & Hst0 & Hstep)].
  - done.
  - rewrite Hs in Hst0. injection Hst0 as <-.
    destruct Hstep; simpl in *; try congruence. eauto.
Qed.

Lemma Qpower_2_nonneg k : 0 <= k -> (2 ^ k == inject_Z (2 ^ k))%Q.
Proof. intros Hk. symmetry. exact (Zpower_Qpower 2 k Hk). Qed.

(** The binary64 numbers between 2^30 and 2^31 are the unix readings. *)
Lemma unix_reading_iff q :
  unix_reading q <-> binary64 q /\ (inject_Z (2 ^ 30) <= q < inject_Z (2 ^ 31))%Q.
Proof.
  split.
  - intros (n & Hn & Hq). split.
    + exists n, (-22). split; [lia|]. split; [lia|].
      rewrite Hq. unfold Qeq. simpl. lia.
    + rewrite Hq. unfold Qle, Qlt. simpl. lia.
  - intros [(m & e & Hm & He & Hq) [Hlo Hhi]].
    destruct (Z_lt_le_dec e (-22)) as [Hsmall|Hbig].
    + exfalso.
      assert (inject_Z m == q * inject_Z (2 ^ (- e)))%Q as Hmq.
      { rewrite Hq, <- Qpower_2_nonneg by lia.
        rewrite <- Qmult_assoc, <- Qpower_plus by done.
        replace (e + - e) with 0 by lia. simpl. ring. }
      assert (2 ^ 23 <= 2 ^ (- e)) as Hpow by (apply Z.pow_le_mono_r; lia).
      assert (inject_Z (2 ^ 30) * inject_Z (2 ^ 23) <= inject_Z m)%Q as Hle.
      { rewrite Hmq. apply Qmult_le_compat_nonneg.
        - split; [done|exact Hlo].
        - split; [done|]. rewrite <- Zle_Qle. exact Hpow. }
      rewrite <- inject_Z_mult, <- Zle_Qle in Hle. lia.
    + exists (m * 2 ^ (e + 22)).
      assert (q == inject_Z (m * 2 ^ (e + 22)) * (1 # 4194304))%Q as Hq'.
      { rewrite Hq, inject_Z_mult, <- Qpower_2_nonneg by lia.
        rewrite Qpower_plus by done. change (2 ^ 22)%Q with (inject_Z 4194304).
        field. }
      split.
      * rewrite Hq' in Hlo, Hhi. unfold Qle, Qlt in Hlo, Hhi. simpl in Hlo, Hhi. lia.
      * rewrite Hq'. unfold Qeq. simpl. lia.
Qed.

(** The two differences of lines 85-86 are binary64 numbers, so the float
    subtractions return them as they are. *)
Lemma elapsed_binary64 a b : unix_reading a -> unix_reading b -> binary64 (a - b).
Proof.
  intros (na & Hna & Ha) (nb & Hnb & Hb). exists (na - nb), (-22).
  split; [lia|]. split; [lia|].
  rewrite Ha, Hb. unfold Qeq. simpl. lia.
Qed.

Lemma remaining_binary64 limit a b :
  Z.abs limit <= 2 ^ 30 -> unix_reading a -> unix_reading b ->
  binary64 (inject_Z limit - (a - b)).
Proof.
  intros Hl (na & Hna & Ha) (nb & Hnb & Hb).
  exists (limit * 4194304 - (na - nb)), (-22).
  split; [lia|]. split; [lia|].
  rewrite Ha, Hb. unfold Qeq. simpl. lia.
Qed.

(** C2. A read of an existing session reports
    [int(max(0, time_limit - elapsed))] as [time_remaining].  When the
    elapsed time has reached the limit and the session is not completed,
    that read reports [time_remaining = 0], [completed = true] and
    [success = false], and it stores [completed = True], [success = False]
    in the record.  No other request does this: whenever a request takes a
    record from not completed to completed without success, the request is
    a read of that session, at a clock reading by which the elapsed time
    has reached the limit.

    The session's start time and the clock readings of the reads are
    binary64 numbers between 2^30 and 2^31 seconds, and the limit is at
    most 2^30 seconds.  Then [elapsed] and [time_limit - elapsed] are
    binary64 numbers (the first part of the statement), so the two float
    subtractions of the code return exactly these values. *)
Theorem timeout_on_read cfg gs sid st now :
  reachable cfg gs ->
  gs !! sid = Some st ->
  Z.abs (cfg_time_limit cfg) <= 2 ^ 30 ->
  unix_reading (start_time st) ->
  unix_reading now ->
  let elapsed := (now - start_time st)%Q in
  let time_remaining := Qmax 0 (inject_Z (cfg_time_limit cfg) - elapsed) in
  let out := get_game_state cfg now gs sid in
  (binary64 elapsed /\ binary64 (inject_Z (cfg_time_limit cfg) - elapsed)) /\
  (resp_status (fst out) = Some 200 /\
   resp_field (fst out) "time_remaining" = Some (JInt (py_int time_remaining)) /\
   (0 <= time_remaining)%Q /\ py_int time_remaining = Qfloor time_remaining) /\
  ((inject_Z (cfg_time_limit cfg) <= elapsed)%Q -> completed st = false ->
     resp_field (fst out) "time_remaining" = Some (JInt 0) /\
     resp_field (fst out) "completed" = Some (JBool true) /\
     resp_field (fst out) "success" = Some (JBool false) /\
     snd out = <[sid := set_completed false st]> gs /\
     exists st', snd out !! sid = Some st' /\
       completed st' = true /\ success st' = Some false) /\
  (forall r st',
     completed st = false ->
     snd (handle cfg r gs) !! sid = Some st' ->
     completed st' = true -> success st' = Some false ->
     exists now', r = GetState now' sid /\
       (unix_reading now' ->
        (inject_Z (cfg_time_limit cfg) <= now' - start_time st)%Q)).
Proof.
  intros Hr Hs Hlimit Hstart Hnow elapsed time_remaining out.
  pose proof (reachable_wf _ _ _ _ Hr Hs) as Hwf.
  subst out time_remaining elapsed. rewrite <- py_max0_Qmax.
  split; [|split; [|split]].
  - split; [by apply elapsed_binary64|by apply remaining_binary64].
  - rewrite (get_game_state_ok _ _ _ _ _ Hs Hwf).
    split; [|split; [|split]].
    + by destruct (Qle_bool _ 0 && _).
    + by destruct (Qle_bool _ 0 && _).
    + apply py_max0_nonneg.
    + apply py_int_floor, py_max0_nonneg.
  - intros Hle Hc. rewrite (get_game_state_timed_out _ _ _ _ _ Hs Hwf Hle Hc).
    simpl. repeat split. eexists. by rewrite lookup_insert_eq.
  - intros r st' Hc Hs' Hc' Hsucc.
    destruct (timeout_only_on_read _ _ _ _ _ _ Hs Hc Hs' Hc' Hsucc)
      as (now' & ? & ? & _). eauto.
Qed.

(** A session created at 1700000000.25 and read at 1700001800.25: the
    elapsed time is 1800.0 and the read times the session out. *)
Lemma timeout_on_read_witness :
  resp_field (fst (get_game_state GAME_CONFIG (6800007201 # 4) store_clock "1700000000"))
    "time_remaining" = Some (JInt 0) /\
  resp_field (fst (get_game_state GAME_CONFIG (6800007201 # 4) store_clock "1700000000"))
    "completed" = Some (JBool true) /\
  resp_field (fst (get_game_state GAME_CONFIG (6800007201 # 4) store_clock "1700000000"))
    "success" = Some (JBool false).
Proof.
  assert (store_clock !! "1700000000" = Some (get_session store_clock "1700000000"))
    as Hs by (vm_compute; reflexivity).
  assert (Z.abs (cfg_time_limit GAME_CONFIG) <= 2 ^ 30) as Hlimit
    by (vm_compute; discriminate).
  assert (unix_reading (start_time (get_session store_clock "1700000000"))) as Hstart
    by (exists 7130316801048576; split; [lia|vm_compute; reflexivity]).
  assert (unix_reading (6800007201 # 4)) as Hnow
    by (exists 7130324350795776; split; [lia|vm_compute; reflexivity]).
  pose proof (proj1 (proj2 (proj2 (timeout_on_read GAME_CONFIG store_clock "1700000000"
    (get_session store_clock "1700000000") (6800007201 # 4)
    store_clock_reachable Hs Hlimit Hstart Hnow)))) as H.
  destruct H as (H1 & H2 & H3 & _).
  - vm_compute. discriminate.
  - vm_compute. reflexivity.
  - exact (conj H1 (conj H2 H3)).
Defined.

(** ** Descriptions of items that are not found *)

Lemma items_view_same_up_to_unfound (d : gmap string bool) its1 its2 :
  Forall2 (fun kv1 kv2 =>
             fst kv1 = fst kv2 /\
             i_found (snd kv1) = i_found (snd kv2) /\
             i_location (snd kv1) = i_location (snd kv2) /\
             (d !! fst kv1 = Some true ->
              i_description (snd kv1) = i_description (snd kv2))) its1 its2 ->
  items_view d its1 = items_view d its2.
Proof.
  induction 1 as [|[k1 it1] [k2 it2] its1 its2 (Hk & _ & _ & Hd) _ IH]; [done|].
  simpl in *. subst k2. rewrite IH. unfold flag.
  destruct (d !! k1) as [[]|]; simpl; [|done..].
  by rewrite Hd.
Qed.

Lemma get_game_state_same_up_to_unfound c1 c2 now gs sid st :
  gs !! sid = Some st -> same_up_to_unfound st c1 c2 ->
  get_game_state c1 now gs sid = get_game_state c2 now gs sid.
Proof.
  intros Hs (Hlimit & Hpuzzles & Hitems). unfold get_game_state.
  rewrite Hs, Hlimit, Hpuzzles.
  assert (forall st', items st' = items st ->
    items_view (items st') (cfg_items c1) = items_view (items st') (cfg_items c2)) as Hv.
  { intros st' ->. by apply items_view_same_up_to_unfound. }
  destruct (Qle_bool _ 0 && _); simpl; by rewrite Hv.
Qed.

(** C9. In the answer to a read, the entry of every item whose found flag
    is false is [{found: false, description: "???"}]: the key of such an
    item carries that entry and no other.  Hence two registries that
    differ only in descriptions of items the session has not found get the
    same answer, and leave the same store, on every read of that session. *)
Theorem unfound_items_redacted cfg gs sid st now :
  reachable cfg gs ->
  gs !! sid = Some st ->
  (forall k it, (k, it) ∈ cfg_items cfg -> items st !! k = Some false ->
     forall v, (k, v) ∈ view_items (fst (get_game_state cfg now gs sid)) <->
               v = item_entry false "???") /\
  (forall cfg', same_up_to_unfound st cfg cfg' ->
     get_game_state cfg now gs sid = get_game_state cfg' now gs sid).
Proof.
  intros Hr Hs. pose proof (reachable_wf _ _ _ _ Hr Hs) as Hwf.
  split; [|intros cfg'; by apply get_game_state_same_up_to_unfound].
  intros k it Hin Hk v.
  assert (view_items (fst (get_game_state cfg now gs sid)) =
    map (fun kv => (fst kv,
           item_entry (default false (items st !! fst kv))
             (if default false (items st !! fst kv)
              then i_description (snd kv) else "???"))) (cfg_items cfg)) as ->.
  { rewrite (get_game_state_ok _ _ _ _ _ Hs Hwf). by destruct (Qle_bool _ 0 && _). }
  rewrite list_elem_of_In, in_map_iff. split.
  - intros ([k' it'] & [= -> <-] & _). simpl. by rewrite Hk.
  - intros ->. exists (k, it). simpl. rewrite Hk. split; [done|].
    by apply list_elem_of_In.
Qed.

Lemma unfound_items_redacted_witness :
  ("key", item_entry false "???")
    ∈ view_items (fst (get_game_state GAME_CONFIG (5003 # 5) store_fresh "1000")) /\
  get_game_state GAME_CONFIG (5003 # 5) store_fresh "1000"
    = get_game_state GAME_CONFIG_lead_key (5003 # 5) store_fresh "1000".
Proof.
  pose proof (unfound_items_redacted GAME_CONFIG store_fresh "1000"
    (get_session store_fresh "1000") (5003 # 5) store_fresh_reachable eq_refl) as [H1 H2].
  split.
  - apply (H1 "key" {| i_found := false; i_location := "safe";
                       i_description := "A small golden key." |}).
    + vm_compute. apply list_elem_of_here.
    + reflexivity.
    + reflexivity.
  - apply H2. vm_compute. repeat split.
    repeat (constructor; [repeat split; try discriminate|]). constructor.
Defined.

(** ** Comparing the attempt with the solution *)

Lemma N_of_ascii_inj c d : N_of_ascii c = N_of_ascii d -> c = d.
Proof.
  intros H. rewrite <- (ascii_N_embedding c), <- (ascii_N_embedding d). by rewrite H.
Qed.

Lemma N_of_lower_ascii c :
  N_of_ascii (lower_ascii c) =
    if ((65 <=? N_of_ascii c) && (N_of_ascii c <=? 90))%N
    then (N_of_ascii c + 32)%N else N_of_ascii c.
Proof.
  unfold lower_ascii. cbv zeta.
  destruct ((65 <=? N_of_ascii c) && (N_of_ascii c <=? 90))%N eqn:E; [|done].
  apply N_ascii_embedding.
  apply andb_prop in E as [_ E]. apply N.leb_le in E. lia.
Qed.

Lemma lower_ascii_eq_iff c d : lower_ascii c = lower_ascii d <-> same_letter c d.
Proof.
  unfold same_letter, is_upper. split.
  - intros H. apply (f_equal N_of_ascii) in H. rewrite !N_of_lower_ascii in H.
    destruct (N.leb_spec 65 (N_of_ascii c)), (N.leb_spec (N_of_ascii c) 90),
      (N.leb_spec 65 (N_of_ascii d)), (N.leb_spec (N_of_ascii d) 90);
      simpl in H; try (left; apply N_of_ascii_inj; lia);
      try (right; left; lia); try (right; right; lia).
  - intros H. apply N_of_ascii_inj. rewrite !N_of_lower_ascii.
    destruct H as [->|[[? ?]|[? ?]]]; [done|..];
    destruct (N.leb_spec 65 (N_of_ascii c)), (N.leb_spec (N_of_ascii c) 90),
      (N.leb_spec 65 (N_of_ascii d)), (N.leb_spec (N_of_ascii d) 90);
      simpl; lia.
Qed.

Lemma lower_eq_iff a b : lower a = lower b <-> case_insensitive_eq a b.
Proof.
  revert b. induction a as [|c a IH]; intros [|d b]; simpl; try done.
  rewrite <- IH, <- lower_ascii_eq_iff. split; [by intros [= -> ->]|by intros [-> ->]].
Qed.

(** ** Attempts on the other puzzles *)

(** A matching attempt on a well-formed record: the answer and the store,
    by whether an unfound item is located at the puzzle. *)
Lemma solve_right_wf cfg gs sid st pid pdef sol kvs text :
  gs !! sid = Some st -> wf_state cfg st ->
  assoc pid (cfg_puzzles cfg) = Some pdef ->
  completed st = false ->
  puzzles st !! pid = Some false ->
  pid ≠ "door" ->
  p_solution pdef = Some sol ->
  json_get (JObj kvs) "solution" (JStr "") = Ok (JStr text) ->
  lower text = lower sol ->
  (solve_puzzle cfg gs sid pid (JObj kvs) =
     (Resp 200 (JObj [("success", JBool true); ("message", JStr "Puzzle solved!")]),
      <[sid := set_puzzle_solved pid st]> gs) /\
   forall k it, (k, it) ∈ cfg_items cfg -> i_location it = pid ->
     items st !! k = Some true) \/
  (exists pre item_id item post,
     solve_puzzle cfg gs sid pid (JObj kvs) =
       (Resp 200 (JObj [("success", JBool true);
                        ("message", JStr ("Puzzle solved! You found: " ++ i_description item));
                        ("item_found", JStr item_id)]),
        <[sid := set_item_found item_id (set_puzzle_solved pid st)]> gs) /\
     cfg_items cfg = (pre ++ (item_id, item) :: post)%list /\
     i_location item = pid /\ items st !! item_id = Some false /\
     forall k it, (k, it) ∈ pre -> i_location it = pid -> items st !! k = Some true).
Proof.
  intros Hs [_ Hwf] Hp Hc Hflag Hdoor Hsol Hget Heq.
  rewrite (solve_right cfg gs sid pid st Hs pdef sol kvs text) by done.
  destruct (find_item_first pid (items st) (cfg_items cfg) Hwf)
    as [[-> Hall]|(pre & item_id & item & post & -> & Hits & ? & ? & ?)].
  - by left.
  - right. by exists pre, item_id, item, post.
Qed.

(** Text that equals ASCII text without the letter k up to case is such
    text itself. *)
Lemma same_letter_plain c d :
  same_letter c d -> plain_ascii d = true -> plain_ascii c = true.
Proof.
  unfold same_letter, is_upper, plain_ascii. cbv zeta.
  intros H. rewrite !andb_true_iff, !negb_true_iff, !N.ltb_lt, !N.eqb_neq.
  destruct H as [->|[[? ?]|[? ?]]]; [done|lia|lia].
Qed.

Lemma case_insensitive_eq_plain a b :
  case_insensitive_eq a b -> plain_text b = true -> plain_text a = true.
Proof.
  revert b. induction a as [|c a IH]; intros [|d b]; simpl; try done.
  rewrite !andb_true_iff. intros [Hcd Hab] [Hd Hb].
  split; [by eapply same_letter_plain|by eapply IH].
Qed.

(** C3. In an active session, an attempt on a puzzle other than the door
    that is not yet solved and whose configured solution is ASCII text
    without the letter k (as the three solutions of [GAME_CONFIG] are)
    succeeds exactly when the submitted text equals the solution up to the
    case of ASCII letters.  On a match the submitted text is ASCII text
    without the letter k as well and the puzzle's flag becomes true; on a
    mismatch the answer is the generic incorrect-answer failure and the
    store is unchanged.

    For such a solution this is the comparison of line 159 for every
    submitted text: [str.lower] maps no character outside ASCII to ASCII
    text except U+212A to [k], so a text with a character outside ASCII
    does not match in the code either. *)
Theorem attempt_compares_ignoring_case cfg gs sid st pid pdef sol kvs text :
  reachable cfg gs ->
  gs !! sid = Some st ->
  completed st = false ->
  pid ≠ "door" ->
  assoc pid (cfg_puzzles cfg) = Some pdef ->
  p_solution pdef = Some sol ->
  plain_text sol = true ->
  puzzles st !! pid = Some false ->
  json_get (JObj kvs) "solution" (JStr "") = Ok (JStr text) ->
  let out := solve_puzzle cfg gs sid pid (JObj kvs) in
  (resp_field (fst out) "success" = Some (JBool true) <-> case_insensitive_eq text sol) /\
  (case_insensitive_eq text sol ->
     plain_text text = true /\
     resp_status (fst out) = Some 200 /\
     exists st', snd out !! sid = Some st' /\
       puzzles st' = <[pid := true]> (puzzles st) /\
       puzzles st' !! pid = Some true) /\
  (~ case_insensitive_eq text sol ->
     out = (incorrect_answer, gs) /\ snd out !! sid = Some st).
Proof.
  intros Hr Hs Hc Hdoor Hp Hsol Hplain Hflag Hget out. subst out.
  pose proof (reachable_wf _ _ _ _ Hr Hs) as Hwf.
  assert (case_insensitive_eq text sol -> plain_text text = true) as Htext
    by (intros H; by eapply case_insensitive_eq_plain).
  revert Htext. rewrite <- lower_eq_iff. intros Htext.
  destruct (decide (lower text = lower sol)) as [Heq|Hne].
  - destruct (solve_right_wf cfg gs sid st pid pdef sol kvs text)
      as [[-> _]|(pre & item_id & item & post & -> & _)]; try done; simpl.
    + repeat split; try done; [by apply Htext|]. eexists. rewrite lookup_insert_eq.
      split; [done|]. simpl. by rewrite lookup_insert_eq.
    + repeat split; try done; [by apply Htext|]. eexists. rewrite lookup_insert_eq.
      split; [done|]. simpl. by rewrite lookup_insert_eq.
  - rewrite (solve_wrong cfg gs sid pid st Hs pdef sol kvs text) by done.
    simpl. split; [split; [done|by intros ?]|]. split; [by intros ?|done].
Qed.

Lemma attempt_compares_ignoring_case_witness :
  resp_field
    (fst (solve_puzzle GAME_CONFIG store_fresh "1000" "computer" (solution "PASSWORD")))
    "success" = Some (JBool true) /\
  solve_puzzle GAME_CONFIG store_fresh "1000" "computer" (solution "pass word")
    = (incorrect_answer, store_fresh).
Proof.
  assert (store_fresh !! "1000" = Some (get_session store_fresh "1000")) as Hs
    by (vm_compute; reflexivity).
  assert (completed (get_session store_fresh "1000") = false) as Hc
    by (vm_compute; reflexivity).
  assert (puzzles (get_session store_fresh "1000") !! "computer" = Some false) as Hflag
    by (vm_compute; reflexivity).
  assert (plain_text "password" = true) as Hplain by (vm_compute; reflexivity).
  pose proof (fun text =>
    attempt_compares_ignoring_case GAME_CONFIG store_fresh "1000"
      (get_session store_fresh "1000") "computer" _ "password"
      [("solution", JStr text)] text store_fresh_reachable
      Hs Hc ltac:(discriminate) eq_refl eq_refl Hplain Hflag eq_refl) as H.
  split.
  - apply (proj1 (H "PASSWORD")). apply lower_eq_iff. vm_compute. reflexivity.
  - apply (proj2 (proj2 (H "pass word"))). rewrite <- lower_eq_iff.
    vm_compute. discriminate.
Defined.

(** ** Items revealed by a solved puzzle *)

Lemma view_items_after cfg now gs sid st :
  gs !! sid = Some st -> wf_state cfg st ->
  forall k it, (k, it) ∈ cfg_items cfg -> items st !! k = Some true ->
    (k, item_entry true (i_description it))
      ∈ view_items (fst (get_game_state cfg now gs sid)).
Proof.
  intros Hs Hwf k it Hin Hk.
  assert (view_items (fst (get_game_state cfg now gs sid)) =
    map (fun kv => (fst kv,
           item_entry (default false (items st !! fst kv))
             (if default false (items st !! fst kv)
              then i_description (snd kv) else "???"))) (cfg_items cfg)) as ->.
  { rewrite (get_game_state_ok _ _ _ _ _ Hs Hwf). by destruct (Qle_bool _ 0 && _). }
  apply list_elem_of_In, in_map_iff. exists (k, it). simpl. rewrite Hk.
  split; [done|by apply list_elem_of_In].
Qed.

Lemma solve_reveals_first cfg gs sid st pid pdef sol kvs text :
  reachable cfg gs ->
  gs !! sid = Some st ->
  completed st = false ->
  pid ≠ "door" ->
  assoc pid (cfg_puzzles cfg) = Some pdef ->
  p_solution pdef = Some sol ->
  puzzles st !! pid = Some false ->
  json_get (JObj kvs) "solution" (JStr "") = Ok (JStr text) ->
  lower text = lower sol ->
  (exists k it, (k, it) ∈ cfg_items cfg /\ i_location it = pid /\
                items st !! k = Some false) ->
  exists pre item_id item post,
    cfg_items cfg = (pre ++ (item_id, item) :: post)%list /\
    i_location item = pid /\ items st !! item_id = Some false /\
    (forall k it, (k, it) ∈ pre -> i_location it = pid -> items st !! k = Some true) /\
    let out := solve_puzzle cfg gs sid pid (JObj kvs) in
    fst out =
      Resp 200 (JObj [("success", JBool true);
                      ("message", JStr ("Puzzle solved! You found: " ++ i_description item));
                      ("item_found", JStr item_id)]) /\
    (exists st', snd out = <[sid := st']> gs /\
       items st' = <[item_id := true]> (items st) /\
       puzzles st' = <[pid := true]> (puzzles st)) /\
    forall now,
      (item_id, item_entry true (i_description item))
        ∈ view_items (fst (get_game_state cfg now (snd out) sid)).
Proof.
  intros Hr Hs Hc Hdoor Hp Hsol Hflag Hget Heq (k & it & Hin & Hloc & Hk).
  pose proof (reachable_wf _ _ _ _ Hr Hs) as Hwf.
  destruct (solve_right_wf cfg gs sid st pid pdef sol kvs text)
    as [[_ Hall]|(pre & item_id & item & post & Hout & Hits & ? & ? & ?)]; try done.
  { rewrite (Hall k it Hin Hloc) in Hk. done. }
  exists pre, item_id, item, post. repeat split; try done.
  - by rewrite Hout.
  - rewrite Hout. by eexists.
  - intros now.
    assert (reachable cfg (snd (solve_puzzle cfg gs sid pid (JObj kvs)))) as Hr'.
    { apply (reachable_step cfg (Solve sid pid (JObj kvs))). done. }
    assert (snd (solve_puzzle cfg gs sid pid (JObj kvs)) !! sid =
            Some (set_item_found item_id (set_puzzle_solved pid st))) as Hs'.
    { rewrite Hout. apply lookup_insert_eq. }
    eapply view_items_after; [done|by eapply reachable_wf| |].
    + rewrite Hits. apply elem_of_app. right. apply list_elem_of_here.
    + simpl. apply lookup_insert_eq.
Qed.

Lemma solve_safe_reveals_key gs sid st :
  reachable GAME_CONFIG gs ->
  gs !! sid = Some st ->
  completed st = false ->
  puzzles st !! "safe" = Some false ->
  let out := solve_puzzle GAME_CONFIG gs sid "safe" (solution "1234") in
  fst out =
    Resp 200 (JObj [("success", JBool true);
                    ("message", JStr "Puzzle solved! You found: A small golden key.");
                    ("item_found", JStr "key")]) /\
  (exists st', snd out !! sid = Some st' /\
     puzzles st' !! "safe" = Some true /\ items st' !! "key" = Some true) /\
  forall now,
    ("key", item_entry true "A small golden key.")
      ∈ view_items (fst (get_game_state GAME_CONFIG now (snd out) sid)).
Proof.
  intros Hr Hs Hc Hflag.
  pose proof (reachable_wf _ _ _ _ Hr Hs) as [_ Hwf].
  pose proof (reachable_items_follow_puzzles _ _ _ _ GAME_CONFIG_items_NoDup Hr Hs) as Hinv.
  set (key := {| i_found := false; i_location := "safe";
                 i_description := "A small golden key." |}).
  assert (("key", key) ∈ cfg_items GAME_CONFIG) as Hin by apply list_elem_of_here.
  assert (items st !! "key" = Some false) as Hkey.
  { destruct (Hwf "key") as [[] Hb]; [apply list_elem_of_here| |done].
    specialize (Hinv "key" key Hin Hb). simpl in Hinv. congruence. }
  destruct (solve_reveals_first GAME_CONFIG gs sid st "safe"
              {| p_solved := false; p_solution := Some "1234"; p_requires := None;
                 p_description := "A locked safe with a 4-digit combination." |}
              "1234" [("solution", JStr "1234")] "1234" Hr Hs Hc)
    as (pre & item_id & item & post & Hits & Hloc & Hunfound & Hpre & Hout);
    try done.
  { by exists "key", key. }
  assert (pre = [] /\ item_id = "key" /\ item = key) as (-> & -> & ->).
  { destruct pre as [|[k0 it0] pre].
    - by injection Hits as <- <- _.
    - injection Hits as <- <- _.
      specialize (Hpre "key" key (list_elem_of_here _ _) eq_refl). congruence. }
  cbv zeta in Hout. destruct Hout as (Hresp & (st' & Hst' & Hi & Hpz) & Hview).
  cbv zeta. fold (solution "1234") in *. repeat split; try done.
  exists st'. rewrite Hst', lookup_insert_eq, Hi, Hpz, !lookup_insert_eq. done.
Qed.

(** C5. When an attempt on a puzzle other than the door succeeds and some
    item of the registry is located at that puzzle and not yet found, the
    first such item in the order of the registry, and only that item, gets
    its found flag set; the answer names it and carries its configured
    description, and a read that follows, at any clock reading, shows it
    as found, with that description.  In particular, in an active session whose safe is
    unsolved, the attempt ["1234"] on ["safe"] sets the safe's solved flag
    and reveals the item ["key"]. *)
Theorem solved_puzzle_reveals_item :
  (forall cfg gs sid st pid pdef sol kvs text,
     reachable cfg gs ->
     gs !! sid = Some st ->
     completed st = false ->
     pid ≠ "door" ->
     assoc pid (cfg_puzzles cfg) = Some pdef ->
     p_solution pdef = Some sol ->
     puzzles st !! pid = Some false ->
     json_get (JObj kvs) "solution" (JStr "") = Ok (JStr text) ->
     case_insensitive_eq text sol ->
     (exists k it, (k, it) ∈ cfg_items cfg /\ i_location it = pid /\
                   items st !! k = Some false) ->
     exists pre item_id item post,
       cfg_items cfg = (pre ++ (item_id, item) :: post)%list /\
       i_location item = pid /\ items st !! item_id = Some false /\
       (forall k it, (k, it) ∈ pre -> i_location it = pid ->
          items st !! k = Some true) /\
       let out := solve_puzzle cfg gs sid pid (JObj kvs) in
       fst out =
         Resp 200 (JObj [("success", JBool true);
                         ("message",
                          JStr ("Puzzle solved! You found: " ++ i_description item));
                         ("item_found", JStr item_id)]) /\
       (exists st', snd out = <[sid := st']> gs /\
          items st' = <[item_id := true]> (items st) /\
          puzzles st' = <[pid := true]> (puzzles st)) /\
       forall now,
         (item_id, item_entry true (i_description item))
           ∈ view_items (fst (get_game_state cfg now (snd out) sid))) /\
  (forall gs sid st,
     reachable GAME_CONFIG gs ->
     gs !! sid = Some st ->
     completed st = false ->
     puzzles st !! "safe" = Some false ->
     let out := solve_puzzle GAME_CONFIG gs sid "safe" (solution "1234") in
     fst out =
       Resp 200 (JObj [("success", JBool true);
                       ("message", JStr "Puzzle solved! You found: A small golden key.");
                       ("item_found", JStr "key")]) /\
     (exists st', snd out !! sid = Some st' /\
        puzzles st' !! "safe" = Some true /\ items st' !! "key" = Some true) /\
     forall now,
       ("key", item_entry true "A small golden key.")
         ∈ view_items (fst (get_game_state GAME_CONFIG now (snd out) sid))).
Proof.
  split.
  - intros cfg gs sid st pid pdef sol kvs text ? ? ? ? ? ? ? ? Heq%lower_eq_iff ?.
    by eapply solve_reveals_first.
  - apply solve_safe_reveals_key.
Qed.

Lemma solved_puzzle_reveals_item_witness :
  fst (solve_puzzle GAME_CONFIG store_fresh "1000" "safe" (solution "1234")) =
    Resp 200 (JObj [("success", JBool true);
                    ("message", JStr "Puzzle solved! You found: A small golden key.");
                    ("item_found", JStr "key")]) /\
  ("key", item_entry true "A small golden key.")
    ∈ view_items (fst (get_game_state GAME_CONFIG (5003 # 5) store_safe "1000")).
Proof.
  pose proof (proj2 solved_puzzle_reveals_item store_fresh "1000"
    (get_session store_fresh "1000") store_fresh_reachable
    eq_refl eq_refl eq_refl) as (H1 & _ & H2).
  split; [exact H1|exact (H2 (5003 # 5))].
Defined.

(** ** Session ids *)

Lemma new_game_session_id cfg t_id t_start gs :
  resp_field (fst (new_game cfg t_id t_start gs)) "session_id"
    = Some (JStr (pretty (py_int t_id))).
Proof. done. Qed.

(** Two calls get the same id exactly when their clock readings fall in
    the same whole second. *)
Lemma new_game_same_id_iff cfg t1 s1 gs1 t2 s2 gs2 :
  resp_field (fst (new_game cfg t1 s1 gs1)) "session_id"
    = resp_field (fst (new_game cfg t2 s2 gs2)) "session_id"
  <-> py_int t1 = py_int t2.
Proof.
  rewrite !new_game_session_id. split.
  - intros [= H]. by apply (inj pretty) in H.
  - by intros ->.
Qed.

(** C8 fails on the handler.  Two [new_game] calls at the clock readings
    1000.2 and 1000.7 both return the session id ["1000"], and the second
    call replaces the record the first one stored. *)
Theorem session_ids_collide :
  let out1 := new_game GAME_CONFIG (5001 # 5) (5001 # 5) ∅ in
  let out2 := new_game GAME_CONFIG (10007 # 10) (10007 # 10) (snd out1) in
  resp_field (fst out1) "session_id" = Some (JStr "1000") /\
  resp_field (fst out2) "session_id" = Some (JStr "1000") /\
  snd out1 !! "1000" = Some (create_new_game_state GAME_CONFIG (5001 # 5)) /\
  snd out2 !! "1000" = Some (create_new_game_state GAME_CONFIG (10007 # 10)) /\
  snd out2 !! "1000" ≠ snd out1 !! "1000" /\
  size (snd out2) = 1%nat.
Proof. repeat split; try reflexivity. vm_compute. discriminate. Qed.

(** C4 fails on the handler, through the same collision of ids.  The
    session ["1000"] is created at 1000.2 and its safe is solved; a
    [new_game] call at 1000.7 then puts the safe's flag back to false.
    Likewise the completed flag of the escaped session goes back to
    false. *)
Theorem flags_reset_by_new_game :
  let r := NewGame (10007 # 10) (10007 # 10) in
  puzzles (get_session store_safe "1000") !! "safe" = Some true /\
  puzzles (get_session (snd (handle GAME_CONFIG r store_safe)) "1000") !! "safe"
    = Some false /\
  completed (get_session store_escaped "1000") = true /\
  completed (get_session (snd (handle GAME_CONFIG r store_escaped)) "1000") = false /\
  is_Some (store_safe !! "1000") /\
  is_Some (snd (handle GAME_CONFIG r store_safe) !! "1000") /\
  is_Some (store_escaped !! "1000") /\
  is_Some (snd (handle GAME_CONFIG r store_escaped) !! "1000").
Proof. repeat split; try reflexivity; vm_compute; eexists; reflexivity. Qed.

(** ** Every request, seen from one session, with the guards it passed *)

Lemma all_solved_true (d : gmap string bool) required :
  all_solved d required = Ok true ->
  Forall (fun p => d !! p = Some true) required.
Proof.
  induction required as [|p required IH]; simpl; [by constructor|].
  unfold flag. destruct (d !! p) as [[]|] eqn:Hp; simpl; try done.
  intros H. constructor; auto.
Qed.

Lemma solve_puzzle_effect cfg gs sid pid data :
  snd (solve_puzzle cfg gs sid pid data) = gs \/
  exists st st',
    gs !! sid = Some st /\ is_Some (assoc pid (cfg_puzzles cfg)) /\
    completed st = false /\ puzzles st !! pid = Some false /\
    solve_effect cfg pid st st' /\
    snd (solve_puzzle cfg gs sid pid data) = <[sid := st']> gs.
Proof.
  unfold solve_puzzle.
  destruct (gs !! sid) as [st|] eqn:Hs; simpl; [|by left].
  destruct (assoc pid (cfg_puzzles cfg)) as [pdef|] eqn:Hp; simpl; [|by left].
  destruct (completed st) eqn:Hc; simpl; [by left|].
  unfold flag. destruct (puzzles st !! pid) as [[]|] eqn:Hflag; simpl; try by left.
  destruct (json_get data "solution" (JStr "")) as [attempt|]; simpl; [|by left].
  case_decide as Hdoor.
  - subst pid. rewrite Hp. simpl.
    destruct (p_requires pdef) as [required|] eqn:Hreq; simpl; [|by left].
    destruct (all_solved (puzzles st) required) as [[]|] eqn:Hall; simpl;
      try by left.
    right. exists st, (set_completed true (set_puzzle_solved "door" st)).
    repeat split; try done. eapply effect_door; eauto using all_solved_true.
  - destruct (p_solution pdef) as [correct|]; simpl; [|by left].
    destruct (json_lower attempt) as [a|]; simpl; [|by left].
    case_decide as Heq; simpl; [|by left].
    destruct (find_item pid (items st) (cfg_items cfg))
      as [[[item_id item]|]|e] eqn:Hfind; simpl; right.
    + exists st, (set_item_found item_id (set_puzzle_solved pid st)).
      repeat split; try done. by eapply effect_revealed.
    + exists st, (set_puzzle_solved pid st).
      repeat split; try done. by eapply effect_solved.
    + exists st, (set_puzzle_solved pid st).
      repeat split; try done. by eapply effect_raised.
Qed.

Lemma handle_record_step cfg r gs sid st st' :
  gs !! sid = Some st ->
  snd (handle cfg r gs) !! sid = Some st' ->
  record_step cfg r sid st st'.
Proof.
  intros Hs.
  destruct r as [t_id t_start|now s|s p data|s p]; simpl.
  - unfold new_game; simpl. intros [[<- ->]|[_ H]]%lookup_update.
    + by eapply record_created.
    + rewrite Hs in H. injection H as <-. by apply record_same.
  - unfold get_game_state.
    destruct (gs !! s) as [st0|] eqn:Hs0; simpl.
    2:{ rewrite Hs. intros [= <-]. by apply record_same. }
    match goal with |- context [Qle_bool ?a 0 && ?b] =>
      destruct (Qle_bool a 0 && b) eqn:Hto end.
    + apply timed_out_inv in Hto as [Hle Hc].
      assert (<[s:=set_completed false st0]> gs !! sid = Some st' ->
              record_step cfg (GetState now s) sid st st') as Hcase.
      { intros [[<- ->]|[_ H]]%lookup_update.
        - rewrite Hs in Hs0. injection Hs0 as ->. by eapply record_timeout.
        - rewrite Hs in H. injection H as <-. by apply record_same. }
      by case_match.
    + assert (gs !! sid = Some st' ->
              record_step cfg (GetState now s) sid st st') as Hcase.
      { rewrite Hs. intros [= <-]. by apply record_same. }
      by case_match.
  - destruct (solve_puzzle_effect cfg gs s p data)
      as [->|(st0 & st1 & Hs0 & Hp & Hc & Hflag & Heff & ->)].
    + rewrite Hs. intros [= <-]. by apply record_same.
    + intros [[<- ->]|[_ H]]%lookup_update.
      * rewrite Hs in Hs0. injection Hs0 as ->. by eapply record_solve.
      * rewrite Hs in H. injection H as <-. by apply record_same.
  - unfold get_hint.
    destruct (gs !! s) as [st0|] eqn:Hs0; simpl.
    2:{ rewrite Hs. intros [= <-]. apply record_same. intros pid [= -> ->]. congruence. }
    destruct (assoc p (cfg_puzzles cfg)) eqn:Hp; simpl.
    + intros [[<- ->]|[Hne H]]%lookup_update.
      * rewrite Hs in Hs0. injection Hs0 as ->. by eapply record_hint.
      * rewrite Hs in H. injection H as <-. apply record_same.
        intros pid [= -> ->]. done.
    + rewrite Hs. intros [= <-]. apply record_same. by intros pid [= -> ->].
Qed.

(** Induction over the records of reachable stores: a property that holds
    of fresh records and is kept by every effect of a request on a record
    of a reachable store holds of every record of every reachable store. *)
Lemma reachable_records cfg (P : game_state -> Prop) :
  (forall t, P (create_new_game_state cfg t)) ->
  (forall r gs sid st st',
     reachable cfg gs -> gs !! sid = Some st -> P st ->
     record_step cfg r sid st st' -> P st') ->
  forall gs sid st, reachable cfg gs -> gs !! sid = Some st -> P st.
Proof.
  intros Hfresh Hstep gs sid st Hr. revert sid st.
  induction Hr as [|r gs Hr IH]; intros sid st Hst.
  - by rewrite lookup_empty in Hst.
  - pose proof Hst as Hst'.
    apply handle_lookup in Hst' as [(t_id & t_start & _ & _ & ->)|(st0 & Hst0 & _)].
    + apply Hfresh.
    + eapply Hstep; [done|done|by eapply IH|]. by eapply handle_record_step.
Qed.

(** ** Sessions are isolated and never removed *)

Set Warnings "-clear-no-such-hyp".

Lemma handle_store cfg r gs :
  snd (handle cfg r gs) = gs \/
  exists st', snd (handle cfg r gs) = <[target r := st']> gs /\
    ((exists t_id t_start, r = NewGame t_id t_start) \/ is_Some (gs !! target r)).
Proof.
  destruct r as [t_id t_start|now s|s p data|s p]; simpl.
  - right. eexists. split; [done|]. left. eauto.
  - unfold get_game_state. destruct (gs !! s) as [st|] eqn:Hs; simpl; [|by left].
    destruct (Qle_bool _ 0 && _); case_match; simpl; eauto.
  - destruct (solve_puzzle_effect cfg gs s p data)
      as [->|(st0 & st1 & Hs0 & _ & _ & _ & _ & ->)]; [by left|].
    right. eexists. split; [done|]. right. by rewrite Hs0.
  - unfold get_hint. destruct (gs !! s) as [st|] eqn:Hs; simpl; [|by left].
    destruct (assoc p (cfg_puzzles cfg)); simpl; [|by left]. eauto.
Qed.

(** X1. A request changes no record other than the one it is addressed
    to: the record under any other session id is the same before and
    after, for all four handlers. *)
Theorem other_sessions_untouched cfg r gs sid :
  sid ≠ target r ->
  snd (handle cfg r gs) !! sid = gs !! sid.
Proof.
  intros Hne. destruct (handle_store cfg r gs) as [->|(st' & -> & _)]; [done|].
  by rewrite lookup_insert_ne.
Qed.

Lemma other_sessions_untouched_witness :
  snd (handle GAME_CONFIG (Solve "1000" "door" (JObj [])) store_three) !! "2000"
    = store_three !! "2000" /\
  snd (handle GAME_CONFIG (NewGame (4001 # 2) (4001 # 2)) store_three) !! "1000"
    = store_three !! "1000".
Proof.
  split.
  - apply (other_sessions_untouched GAME_CONFIG
             (Solve "1000" "door" (JObj [])) store_three "2000").
    vm_compute. discriminate.
  - apply (other_sessions_untouched GAME_CONFIG
             (NewGame (4001 # 2) (4001 # 2)) store_three "1000").
    vm_compute. discriminate.
Defined.

Lemma handle_dom cfg r gs :
  dom (snd (handle cfg r gs)) = dom gs ∪ list_to_set (new_ids [r]).
Proof.
  destruct (handle_store cfg r gs) as [Hsame|(st' & Hins & Hwhy)].
  - rewrite Hsame. destruct r; simpl; try set_solver.
    apply (f_equal (fun m => m !! pretty (py_int t_id))) in Hsame. simpl in Hsame.
    unfold new_game in Hsame. simpl in Hsame. rewrite lookup_insert_eq in Hsame.
    symmetry in Hsame. apply (elem_of_dom_2 (D := gset string)) in Hsame. set_solver.
  - rewrite Hins, dom_insert_L.
    destruct Hwhy as [(t_id & t_start & ->)|Hin]; simpl; [set_solver|].
    apply (elem_of_dom (D := gset string)) in Hin. destruct r; simpl in *; set_solver.
Qed.

(** X2. No handler removes a session and only [new_game] adds one: after
    a run, the ids in the store are those it started with together with
    the ids handed out by the [new_game] calls of the run. *)
Theorem run_dom cfg rs gs :
  dom (run cfg rs gs) = dom gs ∪ list_to_set (new_ids rs).
Proof.
  revert gs. induction rs as [|r rs IH]; intros gs; simpl run.
  - simpl. set_solver.
  - rewrite IH, handle_dom.
    assert (new_ids (r :: rs) = (new_ids [r] ++ new_ids rs)%list) as ->
      by (by destruct r).
    rewrite list_to_set_app_L. set_solver.
Qed.

(** ** Reads *)

Lemma get_game_state_unfold cfg now gs sid st :
  gs !! sid = Some st ->
  let timed_out :=
    Qle_bool (py_max0 (inject_Z (cfg_time_limit cfg) - (now - start_time st))%Q) 0
    && negb (completed st) in
  let st' := if timed_out then set_completed false st else st in
  snd (get_game_state cfg now gs sid) = (if timed_out then <[sid := st']> gs else gs) /\
  fst (get_game_state cfg now gs sid) =
    match puzzles_view (puzzles st) (cfg_puzzles cfg),
          items_view (items st) (cfg_items cfg) with
    | Ok ps, Ok its =>
        Resp 200 (JObj [("time_remaining",
                         JInt (py_int (py_max0 (inject_Z (cfg_time_limit cfg)
                                                - (now - start_time st))%Q)));
                        ("puzzles", JObj ps);
                        ("items", JObj its);
                        ("hints_used", JInt (hints_used st));
                        ("completed", JBool (completed st'));
                        ("success", JBool (default false (success st')))])
    | Err e, _ => Raise e
    | Ok _, Err e => Raise e
    end.
Proof.
  intros Hs. cbv zeta. unfold get_game_state. rewrite Hs.
  destruct (Qle_bool _ 0 && negb (completed st)); simpl;
    destruct (puzzles_view (puzzles st) (cfg_puzzles cfg)); simpl; try done;
    destruct (items_view (items st) (cfg_items cfg)); simpl; done.
Qed.

(** X3. A read never changes the start time, the puzzle flags, the item
    flags or the hint counter of the session, and it changes nothing at
    all once the session is completed.  Reading again at the same clock
    reading gives the same answer and the same store, and a read at any
    later or earlier clock reading still reports the same puzzles, items
    and hint counter. *)
Theorem reads_only_time_out cfg now gs sid st :
  gs !! sid = Some st ->
  let out := get_game_state cfg now gs sid in
  (exists st', snd out !! sid = Some st' /\
     start_time st' = start_time st /\ puzzles st' = puzzles st /\
     items st' = items st /\ hints_used st' = hints_used st) /\
  (completed st = true -> snd out = gs) /\
  get_game_state cfg now (snd out) sid = out /\
  (forall now' f, f ∈ ["puzzles"; "items"; "hints_used"] ->
     resp_field (fst (get_game_state cfg now' (snd out) sid)) f
       = resp_field (fst out) f).
Proof.
  intros Hs out. subst out.
  destruct (get_game_state_unfold cfg now gs sid st Hs) as [Hsnd Hfst].
  cbv zeta in Hsnd, Hfst.
  remember (Qle_bool (py_max0 (inject_Z (cfg_time_limit cfg) - (now - start_time st))%Q) 0
            && negb (completed st)) as timed_out eqn:Hto.
  assert (exists st', snd (get_game_state cfg now gs sid) !! sid = Some st' /\
    st' = (if timed_out then set_completed false st else st)) as (st' & Hs' & Hst').
  { rewrite Hsnd. destruct timed_out; [rewrite lookup_insert_eq|]; eauto. }
  assert (start_time st' = start_time st /\ puzzles st' = puzzles st /\
          items st' = items st /\ hints_used st' = hints_used st)
    as (Ht & Hp & Hi & Hh) by (subst st'; by destruct timed_out).
  split; [by exists st'|]. split.
  { intros Hc. rewrite Hsnd, Hto, Hc, andb_false_r. done. }
  destruct (get_game_state_unfold cfg now _ sid st' Hs') as [Hsnd' Hfst'].
  cbv zeta in Hsnd', Hfst'. rewrite Ht, Hp, Hi, Hh in Hfst'. rewrite Ht in Hsnd'.
  assert (Qle_bool (py_max0 (inject_Z (cfg_time_limit cfg) - (now - start_time st))%Q) 0
          && negb (completed st') = false) as Hagain.
  { subst st'. destruct timed_out; simpl; [by rewrite andb_false_r|done]. }
  rewrite Hagain in Hfst', Hsnd'.
  split.
  - apply injective_projections; [|done].
    rewrite Hfst', Hfst.
    destruct (puzzles_view _ _); [|done]. destruct (items_view _ _); [|done].
    by subst st'.
  - intros now' f Hf.
    destruct (get_game_state_unfold cfg now' _ sid st' Hs') as [_ Hfst2].
    cbv zeta in Hfst2. rewrite Ht, Hp, Hi, Hh in Hfst2. rewrite Hfst2, Hfst.
    destruct (puzzles_view _ _); [|done]. destruct (items_view _ _); [|done].
    revert Hf. rewrite !elem_of_cons, elem_of_nil.
    intros [->|[->|[->|[]]]]; done.
Qed.

Lemma reads_only_time_out_witness :
  get_game_state GAME_CONFIG (14001 # 5)
    (snd (get_game_state GAME_CONFIG (14001 # 5) store_safe "1000")) "1000"
  = get_game_state GAME_CONFIG (14001 # 5) store_safe "1000" /\
  snd (get_game_state GAME_CONFIG (14001 # 5) store_escaped "1000") = store_escaped.
Proof.
  split.
  - refine (proj1 (proj2 (proj2 (reads_only_time_out GAME_CONFIG (14001 # 5)
      store_safe "1000" (get_session store_safe "1000") _)))).
    vm_compute. reflexivity.
  - refine (proj1 (proj2 (reads_only_time_out GAME_CONFIG (14001 # 5)
      store_escaped "1000" (get_session store_escaped "1000") _)) _).
    + vm_compute. reflexivity.
    + vm_compute. reflexivity.
Defined.

(** ** Completed sessions *)

Lemma record_step_frozen cfg r sid st st' :
  completed st = true ->
  (forall t_id t_start, r = NewGame t_id t_start -> pretty (py_int t_id) ≠ sid) ->
  record_step cfg r sid st st' -> frozen st st'.
Proof.
  intros Hc Hfresh Hstep.
  destruct Hstep as [_|t_id t_start Hr Hid|now _ _ Hc'|pid data st' _ _ Hc' _ _|pid _ _];
    try congruence.
  - repeat split; lia.
  - by destruct (Hfresh t_id t_start Hr).
  - repeat split; simpl; lia.
Qed.

(** X4. Completed is terminal.  Along any run in which [new_game] is never
    handed the session's id, a completed session keeps its start time,
    its puzzle and item flags, [completed] and [success]; only its hint
    counter can change, and it can only grow. *)
Theorem completed_is_terminal cfg rs gs sid st :
  gs !! sid = Some st ->
  completed st = true ->
  fresh_ids sid rs ->
  exists st', run cfg rs gs !! sid = Some st' /\ frozen st st'.
Proof.
  revert gs st. induction rs as [|r rs IH]; intros gs st Hs Hc Hfresh; simpl.
  - exists st. split; [done|]. repeat split; lia.
  - destruct (handle_lookup_is_Some cfg r gs sid) as [st1 Hs1]; [eauto|].
    assert (frozen st st1) as Hf1.
    { eapply record_step_frozen; [done| |by eapply handle_record_step].
      intros t_id t_start ->. apply (Hfresh t_id t_start), list_elem_of_here. }
    destruct (IH (snd (handle cfg r gs)) st1) as (st' & Hs' & Hf'); [done| | |].
    { destruct Hf1 as (_ & _ & _ & ? & _). congruence. }
    { intros t_id t_start Hin. apply (Hfresh t_id t_start). by apply list_elem_of_further. }
    exists st'. split; [done|].
    destruct Hf1 as (? & ? & ? & ? & ? & ?), Hf' as (? & ? & ? & ? & ? & ?).
    repeat split; try congruence. lia.
Qed.

Lemma completed_is_terminal_witness :
  exists st',
    run GAME_CONFIG [Solve "1000" "safe" (solution "1234");
                     GetState (14001 # 5) "1000";
                     Hint "1000" "door"] store_escaped !! "1000" = Some st' /\
    frozen (get_session store_escaped "1000") st'.
Proof.
  apply (completed_is_terminal GAME_CONFIG _ store_escaped "1000"
           (get_session store_escaped "1000")).
  - vm_compute. reflexivity.
  - vm_compute. reflexivity.
  - intros t_id t_start Hin. exfalso. revert Hin.
    rewrite !elem_of_cons, elem_of_nil. intros [H|[H|[H|[]]]]; discriminate.
Defined.

(** ** Invariants of the records of reachable stores *)

Lemma fresh_flags_dom {A} (d : list (string * A)) :
  dom (list_to_map (map (fun kv => (fst kv, false)) d) : gmap string bool)
    = list_to_set d.*1.
Proof.
  rewrite dom_list_to_map_L. f_equal.
  induction d as [|[k v] d IH]; simpl; [done|]. by f_equal.
Qed.

Lemma dom_insert_present (d : gmap string bool) k b b' :
  d !! k = Some b -> dom (<[k := b']> d) = dom d.
Proof.
  intros Hk. rewrite dom_insert_L.
  apply (elem_of_dom_2 (D := gset string)) in Hk. set_solver.
Qed.

(** X5. Every record of every reachable store has a flag for exactly the
    puzzles of the registry and exactly its items, a hint counter that is
    not negative, and a [success] key exactly when it is completed. *)
Theorem records_keep_their_shape cfg gs sid st :
  reachable cfg gs -> gs !! sid = Some st -> record_shape cfg st.
Proof.
  apply (reachable_records cfg (record_shape cfg)).
  - intros t. repeat split; simpl; try done; apply fresh_flags_dom.
  - intros r _ sid' st0 st1 _ _ (Hp & Hi & Hh & Hcs) Hstep.
    destruct Hstep as [_|t_id t_start _ _|now _ _ Hc|pid data st1 _ _ Hc Hflag Heff|pid _ _].
    + done.
    + repeat split; simpl; try done; apply fresh_flags_dom.
    + repeat split; simpl; done.
    + destruct Heff as [door required -> _ _ _|_ _|e _ _|item_id item _ Hfind];
        repeat split; simpl; try done;
        rewrite ?(dom_insert_present _ _ _ _ Hflag); try done; try tauto.
      apply find_item_Some in Hfind as (_ & _ & Hfound).
      by rewrite (dom_insert_present _ _ _ _ Hfound).
    + repeat split; simpl; try done; try tauto. lia.
Qed.

Lemma records_keep_their_shape_witness : record_shape GAME_CONFIG (get_session store_escaped "1000").
Proof.
  apply (records_keep_their_shape GAME_CONFIG store_escaped "1000").
  - exact store_escaped_reachable.
  - vm_compute. reflexivity.
Defined.

Lemma Forall_solved_insert (d : gmap string bool) k required :
  Forall (fun p => d !! p = Some true) required ->
  Forall (fun p => <[k := true]> d !! p = Some true) required.
Proof.
  intros H. eapply Forall_impl; [exact H|].
  intros p Hp. simpl. rewrite lookup_insert. by case_decide.
Qed.

(** X6. In every record of every reachable store the door is solved
    exactly when [success] is true, a true [success] comes with
    [completed], and a solved door comes with every prerequisite the
    registry lists for it solved. *)
Theorem door_solved_means_escaped cfg gs sid st :
  reachable cfg gs -> gs !! sid = Some st ->
  (puzzles st !! "door" = Some true <-> success st = Some true) /\
  (success st = Some true -> completed st = true) /\
  (forall door required,
     assoc "door" (cfg_puzzles cfg) = Some door ->
     p_requires door = Some required ->
     puzzles st !! "door" = Some true ->
     Forall (fun p => puzzles st !! p = Some true) required).
Proof.
  apply (reachable_records cfg (fun st =>
    (puzzles st !! "door" = Some true <-> success st = Some true) /\
    (success st = Some true -> completed st = true) /\
    (forall door required,
       assoc "door" (cfg_puzzles cfg) = Some door ->
       p_requires door = Some required ->
       puzzles st !! "door" = Some true ->
       Forall (fun p => puzzles st !! p = Some true) required))).
  - intros t. simpl. split; [|split]; try done.
    + split; [|done]. by intros ?%fresh_flags_false.
    + intros door required _ _ ?%fresh_flags_false. done.
  - intros r _ sid' st0 st1 _ _ (Hdoor & Hsucc & Hreq) Hstep.
    destruct Hstep as [_|t_id t_start _ _|now _ _ Hc|pid data st1 _ _ Hc Hflag Heff|pid _ _].
    + done.
    + simpl. split; [|split]; try done.
      * split; [|done]. by intros ?%fresh_flags_false.
      * intros door required _ _ ?%fresh_flags_false. done.
    + assert (puzzles st0 !! "door" ≠ Some true) as Hnot.
      { intros H. apply Hdoor, Hsucc in H. congruence. }
      simpl. split; [|split]; done.
    + destruct Heff as [door required -> Hd Hr Hall|Hne _|e Hne _|item_id item Hne _]; simpl.
      * split; [by rewrite lookup_insert_eq|]. split; [done|].
        intros door' required' Hd' Hr' _.
        rewrite Hd in Hd'. injection Hd' as <-. rewrite Hr in Hr'. injection Hr' as <-.
        by apply Forall_solved_insert.
      * rewrite lookup_insert_ne by done. split; [done|]. split; [done|].
        intros door required Hd Hr H. eapply Forall_solved_insert, Hreq; eauto.
      * rewrite lookup_insert_ne by done. split; [done|]. split; [done|].
        intros door required Hd Hr H. eapply Forall_solved_insert, Hreq; eauto.
      * rewrite lookup_insert_ne by done. split; [done|]. split; [done|].
        intros door required Hd Hr H. eapply Forall_solved_insert, Hreq; eauto.
    + done.
Qed.

Lemma door_solved_means_escaped_witness :
  puzzles (get_session store_escaped "1000") !! "door" = Some true <->
  success (get_session store_escaped "1000") = Some true.
Proof.
  apply (door_solved_means_escaped GAME_CONFIG store_escaped "1000").
  - exact store_escaped_reachable.
  - vm_compute. reflexivity.
Defined.

(** ** Items and the puzzles they are located at *)

Lemma record_step_wf cfg r sid st st' :
  record_step cfg r sid st st' -> wf_state cfg st -> wf_state cfg st'.
Proof.
  intros Hstep [Hp Hi].
  destruct Hstep as [_|t_id t_start _ _|now _ _ _|pid data st' _ _ _ _ Heff|pid _ _];
    try (split; simpl; done).
  - apply create_new_game_state_wf.
  - destruct Heff; split; simpl; intros k Hk;
      rewrite ?lookup_insert_is_Some'; auto.
Qed.

Lemma find_item_None pid (d : gmap string bool) its :
  find_item pid d its = Ok None ->
  forall k it, (k, it) ∈ its -> i_location it = pid -> d !! k = Some true.
Proof.
  induction its as [|[k0 it0] its IH]; simpl.
  - intros _ k it ?%elem_of_nil. done.
  - case_decide as Hloc.
    + unfold flag. destruct (d !! k0) as [[]|] eqn:Hk0; simpl; try done.
      intros H k it [[= -> ->]|Hin]%elem_of_cons; eauto.
    + intros H k it [[= -> ->]|Hin]%elem_of_cons; [done|eauto].
Qed.

Lemma find_item_no_error cfg st pid e :
  wf_state cfg st -> find_item pid (items st) (cfg_items cfg) ≠ Err e.
Proof.
  intros [_ Hwf] He.
  destruct (find_item_first pid (items st) (cfg_items cfg) Hwf)
    as [[H _]|(? & ? & ? & ? & H & _)]; congruence.
Qed.

Lemma elem_of_locations_unique (its : list (string * item_def)) k1 it1 k2 it2 :
  NoDup (map (fun kv => i_location (snd kv)) its) ->
  (k1, it1) ∈ its -> (k2, it2) ∈ its ->
  i_location it1 = i_location it2 -> (k1, it1) = (k2, it2).
Proof.
  induction its as [|[k it] its IH]; simpl; [by intros _ ?%elem_of_nil|].
  intros [Hnotin Hnd]%NoDup_cons H1 H2 Hloc.
  assert (forall k' it', (k', it') ∈ its ->
            i_location it' ∈ map (fun kv => i_location (snd kv)) its) as Hmem.
  { intros k' it' Hin. apply list_elem_of_In, in_map_iff.
    exists (k', it'). split; [done|by apply list_elem_of_In]. }
  apply elem_of_cons in H1 as [[= -> ->]|H1], H2 as [[= -> ->]|H2]; simpl in *.
  - done.
  - exfalso. apply Hnotin. rewrite Hloc. eauto.
  - exfalso. apply Hnotin. rewrite <- Hloc. eauto.
  - by apply IH.
Qed.

(** X7. For a registry whose items have distinct ids and distinct
    locations, in every record the server can reach, an item not located
    at the door is found exactly when the puzzle it is located at is
    solved. *)
Theorem found_iff_solved cfg gs sid st :
  NoDup (cfg_items cfg).*1 ->
  NoDup (map (fun kv => i_location (snd kv)) (cfg_items cfg)) ->
  reachable cfg gs -> gs !! sid = Some st ->
  forall k it, (k, it) ∈ cfg_items cfg -> i_location it ≠ "door" ->
    (items st !! k = Some true <-> puzzles st !! i_location it = Some true).
Proof.
  intros Hkeys Hlocs Hr Hs k it Hin Hdoor. split.
  { by apply (reachable_items_follow_puzzles cfg gs sid st Hkeys Hr Hs). }
  revert k it Hin Hdoor.
  apply (reachable_records cfg (fun st =>
    forall k it, (k, it) ∈ cfg_items cfg -> i_location it ≠ "door" ->
      puzzles st !! i_location it = Some true -> items st !! k = Some true))
    with (gs := gs) (sid := sid); try done.
  - intros t k it _ _ ?%fresh_flags_false. done.
  - clear gs sid st Hr Hs.
    intros r gs sid st st' Hr Hs IH Hstep k it Hin Hdoor.
    pose proof (reachable_wf _ _ _ _ Hr Hs) as Hwf.
    destruct Hstep as [_|t_id t_start _ _|now _ _ _|pid data st' _ _ _ Hflag Heff|pid _ _];
      simpl; eauto.
    + by intros ?%fresh_flags_false.
    + destruct Heff as [door required -> _ _ _|Hne Hfind|e Hne Hfind|item_id item Hne Hfind];
        simpl.
      * rewrite lookup_insert_ne by done. eauto.
      * rewrite lookup_insert. case_decide as Hloc; [|eauto].
        intros _. eapply find_item_None; eauto.
      * by destruct (find_item_no_error cfg st pid e).
      * apply find_item_Some in Hfind as (Hin' & Hloc' & _).
        rewrite lookup_insert. case_decide as Hloc.
        -- intros _.
           assert ((item_id, item) = (k, it)) as [= -> ->].
           { eapply elem_of_locations_unique; eauto. congruence. }
           apply lookup_insert_eq.
        -- intros Hsolved. rewrite lookup_insert. case_decide; [done|eauto].
Qed.

Lemma found_iff_solved_witness :
  items (get_session store_safe "1000") !! "key" = Some true <->
  puzzles (get_session store_safe "1000") !! "safe" = Some true.
Proof.
  apply (found_iff_solved GAME_CONFIG store_safe "1000" (get_session store_safe "1000")
           GAME_CONFIG_items_NoDup) with
    (it := {| i_found := false; i_location := "safe";
              i_description := "A small golden key." |}).
  - apply (bool_decide_unpack _). by vm_compute.
  - exact store_safe_reachable.
  - vm_compute. reflexivity.
  - vm_compute. apply list_elem_of_here.
  - discriminate.
Defined.

(** ** Items that are never revealed *)

Lemma find_item_skips pid (d : gmap string bool) pre k1 it1 post k it :
  NoDup ((pre ++ (k1, it1) :: post)%list).*1 ->
  find_item pid d (pre ++ (k1, it1) :: post)%list = Ok (Some (k, it)) ->
  (k, it) ∈ post ->
  i_location it1 = pid ->
  d !! k1 = Some true.
Proof.
  intros Hnd Hfind Hin Hloc.
  assert (k ∈ post.*1) as Hk.
  { apply list_elem_of_fmap. by exists (k, it). }
  induction pre as [|[k0 it0] pre IH]; simpl in *.
  - apply NoDup_cons in Hnd as [Hnotin _].
    rewrite decide_True in Hfind by done.
    unfold flag in Hfind. destruct (d !! k1) as [[]|]; simpl in Hfind; try done.
    injection Hfind as -> ->. done.
  - apply NoDup_cons in Hnd as [Hnotin Hnd].
    assert (k0 ≠ k) as Hne.
    { intros ->. apply Hnotin. rewrite fmap_app, elem_of_app. right.
      simpl. by apply list_elem_of_further. }
    case_decide; [|by apply IH].
    unfold flag in Hfind. destruct (d !! k0) as [[]|]; simpl in Hfind; try done.
    + by apply IH.
    + by injection Hfind as -> ->.
Qed.

(** X8. For a registry whose items have distinct ids, two kinds of item
    are never revealed, in any record the server can reach: an item
    located at the door, and an item that comes, in the order of the
    registry, after another item located at the same puzzle. *)
Theorem shadowed_items_stay_hidden cfg gs sid st :
  NoDup (cfg_items cfg).*1 ->
  reachable cfg gs -> gs !! sid = Some st ->
  forall k it, (k, it) ∈ cfg_items cfg ->
    (i_location it = "door" \/
     exists pre k1 it1 post,
       cfg_items cfg = (pre ++ (k1, it1) :: post)%list /\
       (k, it) ∈ post /\ i_location it1 = i_location it) ->
    items st !! k = Some false.
Proof.
  intros Hnd Hr Hs k it Hin Hwhy.
  destruct (reachable_wf _ _ _ _ Hr Hs) as [_ Hwf].
  destruct (Hwf k) as [b Hb]; [apply list_elem_of_fmap; by exists (k, it)|].
  destruct b; [exfalso|done]. revert Hb.
  apply (reachable_records cfg (fun st => items st !! k ≠ Some true))
    with (gs := gs) (sid := sid); try done.
  - intros t ?%fresh_flags_false. done.
  - clear gs sid st Hr Hs Hwf.
    intros r gs sid st st' Hr Hs IH Hstep.
    pose proof (reachable_items_follow_puzzles _ _ _ _ Hnd Hr Hs) as Hfollow.
    destruct Hstep as [_|t_id t_start _ _|now _ _ _|pid data st' _ _ _ Hflag Heff|pid _ _];
      simpl; try done.
    + by intros ?%fresh_flags_false.
    + destruct Heff as [door required -> _ _ _|_ _|e _ _|item_id item Hne Hfind];
        simpl; try done.
      destruct (decide (item_id = k)) as [->|Hother];
        [|by rewrite lookup_insert_ne].
      intros _.
      pose proof Hfind as (Hin' & Hloc & _)%find_item_Some.
      assert (item = it) as -> by (by eapply elem_of_keys_unique).
      destruct Hwhy as [Hdoor|(pre & k1 & it1 & post & Hits & Hpost & Hsame)];
        [congruence|].
      rewrite Hits in Hfind, Hnd.
      assert (items st !! k1 = Some true) as Hk1.
      { eapply find_item_skips; eauto. congruence. }
      assert (puzzles st !! i_location it1 = Some true) as Hsolved.
      { apply (Hfollow k1 it1); [|done]. rewrite Hits, elem_of_app. right.
        apply list_elem_of_here. }
      congruence.
Qed.

Lemma shadowed_items_stay_hidden_witness :
  items (default (create_new_game_state GAME_CONFIG_crowded 0)
           (store_crowded !! "1000")) !! "coin" = Some false.
Proof.
  apply (shadowed_items_stay_hidden GAME_CONFIG_crowded store_crowded "1000" _)
    with (it := {| i_found := false; i_location := "safe";
                   i_description := "An old coin." |}).
  - apply (bool_decide_unpack _). by vm_compute.
  - apply run_reachable, reachable_init.
  - vm_compute. reflexivity.
  - vm_compute. apply list_elem_of_further, list_elem_of_here.
  - right. eexists [], "key", _, _. split; [reflexivity|]. split; [|reflexivity].
    apply list_elem_of_here.
Defined.

(** ** Counting hints *)

Lemma hint_requests_cons cfg sid r rs :
  hint_requests cfg sid (r :: rs) = hint_requests cfg sid [r] + hint_requests cfg sid rs.
Proof. destruct r; simpl; lia. Qed.

Lemma record_step_hints cfg r sid st st' :
  (forall t_id t_start, r = NewGame t_id t_start -> pretty (py_int t_id) ≠ sid) ->
  record_step cfg r sid st st' ->
  hints_used st' = hints_used st + hint_requests cfg sid [r].
Proof.
  intros Hfresh Hstep.
  destruct Hstep as [Hsame|t_id t_start Hr Hid|now -> _ _|pid data st' -> _ _ _ Heff|pid -> Hp].
  - destruct r as [| | |s p]; simpl; try lia.
    case_decide as Hs; [|lia]. subst s. rewrite (Hsame p eq_refl). lia.
  - by destruct (Hfresh t_id t_start Hr).
  - simpl. lia.
  - destruct Heff; simpl; lia.
  - simpl. rewrite decide_True by done. destruct Hp as [pdef ->]. lia.
Qed.

(** X9. Along any run in which [new_game] is never handed the session's
    id, the hint counter of the session grows by exactly the number of
    hint requests addressed to it that name a puzzle of the registry; no
    other request changes it. *)
Theorem hints_used_counts_requests cfg rs gs sid st :
  gs !! sid = Some st ->
  fresh_ids sid rs ->
  exists st', run cfg rs gs !! sid = Some st' /\
    hints_used st' = hints_used st + hint_requests cfg sid rs.
Proof.
  revert gs st. induction rs as [|r rs IH]; intros gs st Hs Hfresh.
  - exists st. simpl. split; [done|lia].
  - destruct (handle_lookup_is_Some cfg r gs sid) as [st1 Hs1]; [eauto|].
    assert (hints_used st1 = hints_used st + hint_requests cfg sid [r]) as H1.
    { eapply record_step_hints; [|by eapply handle_record_step].
      intros t_id t_start ->. apply (Hfresh t_id t_start), list_elem_of_here. }
    destruct (IH (snd (handle cfg r gs)) st1) as (st' & Hs' & H'); [done| |].
    { intros t_id t_start Hin. apply (Hfresh t_id t_start). by apply list_elem_of_further. }
    exists st'. split; [done|]. rewrite hint_requests_cons. lia.
Qed.

Lemma hints_used_counts_requests_witness :
  exists st',
    run GAME_CONFIG [Hint "1000" "safe"; Hint "1000" "window"; Hint "2000" "safe";
                     Solve "1000" "safe" (solution "1234"); Hint "1000" "door"]
      store_fresh !! "1000" = Some st' /\
    hints_used st' = hints_used (get_session store_fresh "1000") + 2.
Proof.
  apply (hints_used_counts_requests GAME_CONFIG
    [Hint "1000" "safe"; Hint "1000" "window"; Hint "2000" "safe";
     Solve "1000" "safe" (solution "1234"); Hint "1000" "door"]
    store_fresh "1000" (get_session store_fresh "1000")).
  - vm_compute. reflexivity.
  - intros t_id t_start Hin. exfalso. revert Hin.
    rewrite !elem_of_cons, elem_of_nil. intros [H|[H|[H|[H|[H|[]]]]]]; discriminate.
Defined.

(** ** Every outcome of an attempt *)

Lemma solve_bad_body cfg gs sid pid st pdef data :
  gs !! sid = Some st ->
  assoc pid (cfg_puzzles cfg) = Some pdef ->
  completed st = false ->
  puzzles st !! pid = Some false ->
  (forall kvs, data ≠ JObj kvs) ->
  solve_puzzle cfg gs sid pid data = (Raise (AttributeError "get"), gs).
Proof.
  intros Hs Hp Hc Hflag Hbad. unfold solve_puzzle.
  rewrite Hs, Hp, Hc, (flag_Some _ _ _ Hflag).
  destruct data; try done. by destruct (Hbad kvs).
Qed.

Lemma solve_bad_solution cfg gs sid pid st pdef sol kvs :
  gs !! sid = Some st ->
  assoc pid (cfg_puzzles cfg) = Some pdef ->
  completed st = false ->
  puzzles st !! pid = Some false ->
  pid ≠ "door" ->
  p_solution pdef = Some sol ->
  (forall text, default (JStr "") (assoc "solution" kvs) ≠ JStr text) ->
  solve_puzzle cfg gs sid pid (JObj kvs) = (Raise (AttributeError "lower"), gs).
Proof.
  intros Hs Hp Hc Hflag Hdoor Hsol Hbad. unfold solve_puzzle.
  rewrite Hs, Hp, Hc, (flag_Some _ _ _ Hflag). simpl.
  rewrite decide_False by done. rewrite Hsol.
  destruct (default (JStr "") (assoc "solution" kvs)) as [| | |text| |]; try done.
  by destruct (Hbad text).
Qed.

(** The decision table of [solve_puzzle] on a reachable store. *)
Lemma solve_puzzle_table cfg gs sid pid data :
  wf_config cfg ->
  reachable cfg gs ->
  let out := solve_puzzle cfg gs sid pid data in
  (gs !! sid = None /\ out = (Resp 404 (error_body "Game session not found"), gs)) \/
  (is_Some (gs !! sid) /\ assoc pid (cfg_puzzles cfg) = None /\
   out = (Resp 404 (error_body "Puzzle not found"), gs)) \/
  (exists st, gs !! sid = Some st /\ is_Some (assoc pid (cfg_puzzles cfg)) /\
     ((completed st = true /\
       out = (Resp 400 (error_body "Game already completed"), gs)) \/
      (completed st = false /\ puzzles st !! pid = Some true /\
       out = (Resp 400 (error_body "Puzzle already solved"), gs)) \/
      (completed st = false /\ puzzles st !! pid = Some false /\
       ~ well_formed_attempt pid data /\ exists e, out = (Raise e, gs)) \/
      (completed st = false /\ puzzles st !! pid = Some false /\
       well_formed_attempt pid data /\ resp_status (fst out) = Some 200 /\
       (resp_field (fst out) "success" ≠ Some (JBool true) -> snd out = gs)))).
Proof.
  intros [Hsols Hdoors] Hr out. subst out.
  destruct (gs !! sid) as [st|] eqn:Hs.
  2:{ left. split; [done|]. unfold solve_puzzle. by rewrite Hs. }
  right.
  destruct (assoc pid (cfg_puzzles cfg)) as [pdef|] eqn:Hp.
  2:{ left. split; [done|]. split; [done|]. unfold solve_puzzle. by rewrite Hs, Hp. }
  right. exists st. split; [done|]. split; [done|].
  destruct (completed st) eqn:Hc.
  { left. split; [done|]. by eapply solve_completed. }
  right.
  destruct (reachable_wf _ _ _ _ Hr Hs) as [Hwfp Hwfi].
  destruct (Hwfp pid) as [b Hflag]; [apply assoc_is_Some; eauto|].
  destruct b.
  { left. split; [done|]. split; [done|]. by eapply solve_already_solved. }
  right.
  assert ((exists kvs, data = JObj kvs) \/ ~ (exists kvs, data = JObj kvs))
    as [[kvs ->]|Hbad] by (destruct data; eauto; right; by intros [? ?]).
  2:{ left. split; [done|]. split; [done|]. split.
      - intros (kvs & -> & _). apply Hbad. eauto.
      - eexists. eapply solve_bad_body; eauto. }
  destruct (decide (pid = "door")) as [->|Hdoor].
  { right. split; [done|]. split; [done|]. split; [exists kvs; auto|].
    destruct (Hdoors pdef Hp) as (required & Hreq & Hin).
    rewrite (solve_door cfg gs sid "door" st Hs pdef required kvs eq_refl Hp Hreq)
      by (try done; intros p Hpin; apply Hwfp; auto).
    by destruct (bool_decide _). }
  destruct (Hsols pid pdef Hp Hdoor) as [sol Hsol].
  destruct (default (JStr "") (assoc "solution" kvs)) as [| | |text| |] eqn:Hv.
  4:{ right. split; [done|]. split; [done|].
      split; [exists kvs; split; [done|]; right; eauto|].
      assert (json_get (JObj kvs) "solution" (JStr "") = Ok (JStr text)) as Hget
        by (simpl; by rewrite Hv).
      destruct (decide (lower text = lower sol)) as [Heq|Hne].
      - destruct (solve_right_wf cfg gs sid st pid pdef sol kvs text)
          as [[-> _]|(pre & item_id & item & post & -> & _)]; try done.
      - by rewrite (solve_wrong cfg gs sid pid st Hs pdef sol kvs text). }
  all: left; split; [done|]; split; [done|]; split;
    [intros (kvs' & [= <-] & [?|[text Htext]]); [done|congruence]|];
    eexists; eapply solve_bad_solution; eauto; intros text; congruence.
Qed.

Local Ltac outcome_cases :=
  simpl; split_and!; try done; try naive_solver;
  split; try done; try naive_solver;
  let H := fresh in
  intros H; decompose [ex and or] H; simplify_eq; congruence.

(** X10. The outcomes of an attempt on a reachable store, for a registry
    in which every puzzle but the door has a solution and the door's
    prerequisites are puzzles, and for everything [request.json] can do.
    The status is 404 exactly for an unknown session or puzzle.  It is 400
    exactly for a known puzzle of a completed session, for an already
    solved puzzle, and for an unsolved puzzle of an active session when
    [request.json] raises [BadRequest]; it is 415 exactly when
    [request.json] raises [UnsupportedMediaType] there.  It is 200 exactly
    for an unsolved puzzle of an active session with a parsed body that is
    a JSON object whose ["solution"], off the door, is a string; and the
    handler raises exactly when the body is parsed there but is not of that
    kind.  The store changes only when the answer says [success: true]. *)
Theorem solve_puzzle_outcomes cfg gs sid pid body :
  wf_config cfg ->
  reachable cfg gs ->
  let out := solve_puzzle_request cfg gs sid pid body in
  let attempted st :=
    gs !! sid = Some st /\ is_Some (assoc pid (cfg_puzzles cfg)) /\
    completed st = false /\ puzzles st !! pid = Some false in
  (outcome_status (fst out) = Some 404 <->
     gs !! sid = None \/ assoc pid (cfg_puzzles cfg) = None) /\
  (outcome_status (fst out) = Some 400 <->
     (exists st, gs !! sid = Some st /\ is_Some (assoc pid (cfg_puzzles cfg)) /\
        (completed st = true \/ puzzles st !! pid = Some true)) \/
     (exists st, attempted st /\ body = Aborted BadRequest)) /\
  (outcome_status (fst out) = Some 415 <->
     exists st, attempted st /\ body = Aborted UnsupportedMediaType) /\
  (outcome_status (fst out) = Some 200 <->
     exists st data, attempted st /\ body = Parsed data /\ well_formed_attempt pid data) /\
  (outcome_status (fst out) = None <->
     exists st data, attempted st /\ body = Parsed data /\ ~ well_formed_attempt pid data) /\
  (outcome_field (fst out) "success" ≠ Some (JBool true) -> snd out = gs).
Proof.
  intros Hcfg Hr out attempted. subst out attempted.
  destruct body as [data|e].
  - pose proof (solve_puzzle_table cfg gs sid pid data Hcfg Hr) as Htable.
    cbv zeta in Htable. unfold solve_puzzle_request. cbv zeta.
    destruct Htable
      as [[Hs Hout]|[([st Hs] & Hp & Hout)|(st & Hs & [pdef Hp] &
           [[Hc Hout]|[(Hc & Hflag & Hout)|[(Hc & Hflag & Hbad & e & Hout)|
            (Hc & Hflag & Hgood & Hstatus & Hstore)]]])]];
      rewrite ?Hout; simpl; rewrite ?Hstatus, ?Hs, ?Hp; outcome_cases.
  - unfold solve_puzzle_request.
    destruct (gs !! sid) as [st|] eqn:Hs; [|outcome_cases].
    destruct (assoc pid (cfg_puzzles cfg)) as [pdef|] eqn:Hp; [|outcome_cases].
    destruct (reachable_wf _ _ _ _ Hr Hs) as [Hwfp _].
    destruct (Hwfp pid) as [b Hflag]; [apply assoc_is_Some; eauto|].
    rewrite (flag_Some _ _ _ Hflag).
    destruct (completed st) eqn:Hc; [outcome_cases|].
    destruct b, e; outcome_cases.
Qed.

Lemma GAME_CONFIG_wf_config : wf_config GAME_CONFIG.
Proof.
  split.
  - intros pid pdef Hp Hdoor. apply assoc_elem_of in Hp. revert Hp Hdoor. simpl.
    rewrite !elem_of_cons, elem_of_nil.
    intros [H|[H|[H|[H|[]]]]]; injection H as -> ->; simpl; eauto. done.
  - intros door [= <-]. eexists. split; [reflexivity|].
    intros p. simpl. rewrite !elem_of_cons. tauto.
Qed.

Lemma solve_puzzle_outcomes_witness :
  outcome_status (fst (solve_puzzle_request GAME_CONFIG store_fresh "1000" "safe"
                         (Aborted UnsupportedMediaType))) = Some 415 /\
  outcome_status (fst (solve_puzzle_request GAME_CONFIG store_fresh "1000" "safe"
                         (Parsed (JObj [("solution", JInt 1234)])))) = None.
Proof.
  pose proof GAME_CONFIG_wf_config as Hcfg.
  assert (store_fresh !! "1000" = Some (get_session store_fresh "1000") /\
          is_Some (assoc "safe" (cfg_puzzles GAME_CONFIG)) /\
          completed (get_session store_fresh "1000") = false /\
          puzzles (get_session store_fresh "1000") !! "safe" = Some false) as Hatt
    by (vm_compute; repeat split; eauto).
  split.
  - apply (proj2 (proj1 (proj2 (proj2
      (solve_puzzle_outcomes GAME_CONFIG store_fresh "1000" "safe"
         (Aborted UnsupportedMediaType) Hcfg store_fresh_reachable))))).
    exists (get_session store_fresh "1000"). by split.
  - apply (proj2 (proj1 (proj2 (proj2 (proj2 (proj2
      (solve_puzzle_outcomes GAME_CONFIG store_fresh "1000" "safe"
         (Parsed (JObj [("solution", JInt 1234)])) Hcfg store_fresh_reachable))))))).
    exists (get_session store_fresh "1000"), (JObj [("solution", JInt 1234)]).
    split; [exact Hatt|]. split; [done|].
    intros (kvs & [= <-] & [?|[text ?]]); discriminate.
Defined.
